(** * React state hooks and the recording-history page of Streamlabs Desktop

  A shallow embedding of

  - the hooks module ([useVuex], [useOnDestroy], [useAsyncState],
    [useStateHelper]), and
  - the page [RecordingHistory.tsx] ([RecordingHistoryController],
    [ExportModal]),

  followed by the properties proved about them.

  React keeps, per component instance, one memory cell per hook call; a
  render reads and fills those cells and returns closures over the values
  of that render.  Each hook is therefore modelled as a record holding its
  cells, a function for the first render, a function for a re-render, and
  one function per closure the hook hands out.  Whatever a closure captures
  from the render that created it (a snapshot of the state, a local
  variable) is made explicit.

  React is taken as it runs a mounted component in production: a render
  body runs once per render, [useMemo] and [useEffect] with the dependency
  list [[]] run their function for the first render only, the cleanup of
  such an effect runs at unmount, and an update of an unmounted component
  is dropped.  State values are data: the updater form of a setter is not
  used by this code. *)

From stdpp Require Import gmap strings list pretty.

Set Warnings "-register-all".
Set Default Proof Using "Type".

(* ===================================================================== *)
(** * Part I: definitions *)
(* ===================================================================== *)

(** ** JavaScript values and records *)

Module JS.

(** Numbers.  The modelled code only tests them for truthiness and hands
    them on, so the finite ones are integers (byte counts, field values);
    [NaN] is kept because it is falsy. *)
Inductive number :=
  | NaN
  | Num (z : Z).

(** [!!n]: zero and [NaN] are falsy. *)
Definition number_truthy (n : number) : bool :=
  match n with
  | NaN => false
  | Num z => negb (z =? 0)%Z
  end.

(** Plain data as the state records hold it.  An array is an object whose
    keys are the decimal indices. *)
Inductive value :=
  | VUndefined
  | VNull
  | VBool (b : bool)
  | VNum (n : number)
  | VStr (str : string)
  | VObj (fields : gmap string value).

(** A record is the own enumerable string-keyed properties of an object.
    gmap equality is extensional, so key order is not observed. *)
Abbreviation record := (gmap string value).

(** [o[k]] on a record: a missing property reads as [undefined]. *)
Definition get (o : record) (k : string) : value :=
  default VUndefined (o !! k).

Fixpoint chars_from (i : nat) (str : string) : list (string * value) :=
  match str with
  | EmptyString => []
  | String c rest => (pretty i, VStr (String c EmptyString)) :: chars_from (S i) rest
  end.

(** The properties that [{...v}] copies.  [undefined], [null], booleans and
    numbers contribute nothing, a string contributes its characters under
    their indices, an object its own properties. *)
Definition spread (v : value) : record :=
  match v with
  | VObj fields => fields
  | VStr str => list_to_map (chars_from 0 str)
  | _ => ∅
  end.

(** [{...a, ...b}]: the properties of [a], overridden by those of [b]. *)
Definition spread2 (a b : record) : record := b ∪ a.

(** [{...a, [k]: v}] *)
Definition spread_set (a : record) (k : string) (v : value) : record :=
  <[k := v]> a.

(** [!!v] *)
Definition truthy (v : value) : bool :=
  match v with
  | VUndefined | VNull => false
  | VBool b => b
  | VNum n => number_truthy n
  | VStr str => negb (String.eqb str "")
  | VObj _ => true
  end.

(** [undefined], [null], a boolean or a number: what [{...v}] copies nothing
    from, whatever its value. *)
Definition primitive (v : value) : bool :=
  match v with
  | VObj _ | VStr _ => false
  | _ => true
  end.

End JS.

(** ** [useStateHelper] *)

Module UseStateHelper.
Import JS.

(** [T | (() => T)], the argument of [useState]. *)
Inductive initializer :=
  | Value (v : record)
  | Factory (f : unit → record).

Definition initial (i : initializer) : record :=
  match i with
  | Value v => v
  | Factory f => f tt
  end.

(** The cells of one hook instance.
    - [s]: the state as the last render returned it ([const [s, ...]]);
      closures created by that render see this snapshot.
    - [raw]: React's state cell, the last value given to [setStateRaw];
      the next render returns it.
    - [stateRef]: [stateRef.current], the one object [useRef] returns on
      every render. *)
Record hook := Hook {
  s : record;
  raw : record;
  stateRef : record;
}.

(** First render: [useState(initializer)], then [useRef(s)]. *)
Definition mount (i : initializer) : hook :=
  let s0 := initial i in
  {| s := s0; raw := s0; stateRef := s0 |}.

(** A later render: [useState] returns the committed value, [useRef]
    ignores its argument and returns the same object. *)
Definition render (h : hook) : hook :=
  {| s := raw h; raw := raw h; stateRef := stateRef h |}.

Definition setStateRaw (newState : record) (h : hook) : hook :=
  {| s := s h; raw := newState; stateRef := stateRef h |}.

Definition setState (newState : record) (h : hook) : hook :=
  setStateRaw newState {| s := s h; raw := raw h; stateRef := newState |}.

Definition updateState (patch : record) (h : hook) : hook :=
  setState (spread2 (stateRef h) patch) h.

Definition setItem (dictionaryName key : string) (v : value) (h : hook) : hook :=
  setState
    (spread_set (stateRef h) dictionaryName
       (VObj (spread_set (spread (get (stateRef h) dictionaryName)) key v)))
    h.

(** What [bind(fieldName)] returns. *)
Record binding := Binding {
  name : string;
  value_of : value;
  onChange : value → hook → hook;
}.

(** Modelled from the spec: [createBinding], imported from
    ['./shared/inputs'], is not among the sources at hand.  The spec
    describes its result as a descriptor [{name, value, onChange}] that
    two-way-binds a single field, [onChange(newValue)] committing the
    patch [{[fieldName]: newValue}].  The hook calls it as
    [createBinding(s, setState)]: it receives the snapshot [s] and the
    whole-record setter and nothing else, so the record it commits is the
    patch merged into the record it was given. *)
Definition createBinding (target : record) (setter : record → hook → hook)
    (fieldName : string) : binding :=
  {| name := fieldName;
     value_of := get target fieldName;
     onChange := λ newVal, setter (spread_set target fieldName newVal) |}.

(** [bind: createBinding(s, setState)] *)
Definition bind (h : hook) : string → binding :=
  createBinding (s h) setState.

(** What a component can do with the object the hook returned. *)
Inductive action :=
  | ASetState (newState : record)
  | AUpdateState (patch : record)
  | ASetItem (dictionaryName key : string) (v : value)
  | AChange (fieldName : string) (newVal : value)
  | ARender.

Definition step (h : hook) (a : action) : hook :=
  match a with
  | ASetState n => setState n h
  | AUpdateState p => updateState p h
  | ASetItem d k v => setItem d k v h
  | AChange f v => onChange (bind h f) v h
  | ARender => render h
  end.

Definition run (acts : list action) (h : hook) : hook :=
  foldl step h acts.

(** The mirror and React's cell hold the same record. *)
Definition synced (h : hook) : Prop := stateRef h = raw h.

End UseStateHelper.

(** ** [useOnDestroy] and [useAsyncState] *)

Module UseAsyncState.

Section Hook.
Context {T E : Type}.

(** [TStateType | (() => TStateType)] *)
Inductive initializer :=
  | Value (v : T)
  | Factory (f : unit → T).

Definition initial (i : initializer) : T :=
  match i with
  | Value v => v
  | Factory f => f tt
  end.

(** What a promise returned by [asyncCb] eventually does.  When it does so is
    up to the event loop (the [Settle] event below). *)
Inductive result :=
  | Resolve (v : T)
  | Reject (e : E).

(** The arguments of one call of the hook. *)
Record props := Props {
  defaultState : initializer;
  asyncCb : option (T → result);
}.

(** The state of the promise [asyncCb(state).then(...)]; [Fulfilled None]
    is fulfilment with [null]. *)
Inductive settled :=
  | Pending
  | Fulfilled (v : option T)
  | Rejected (e : E).

(** The promise kept by [useMemo].
    - [source]: what [asyncCb(state)] settles to;
    - [guard]: the render whose [isDestroyed] the [then] callback reads;
    - [outcome]: the state of the derived promise. *)
Record promise := Promise {
  source : result;
  guard : nat;
  outcome : settled;
}.

(** The cells of one hook instance.
    - [state]: the [useState] cell;
    - [isDestroyed]: every render declares its own [let isDestroyed = false];
      entry [i] is the variable of render [i], kept alive by the closures
      of that render;
    - [memo]: the [useMemo] cell, [None] for [undefined];
    - [cleanup]: the [useEffect] cell of [useOnDestroy], the render whose
      callback [cb] the effect returned as its cleanup;
    - [calls]: the arguments [asyncCb] has been invoked with, oldest first;
    - [mounted]: whether the component is still mounted. *)
Record hook := Hook {
  state : T;
  isDestroyed : list bool;
  memo : option promise;
  cleanup : option nat;
  calls : list T;
  mounted : bool;
}.

(** First render and its commit.  [useState] evaluates the default,
    [useMemo] runs its factory, [useEffect] (through [useOnDestroy]) runs
    [() => cb] and keeps [cb] as the cleanup.  Both closures are created by
    render 0 and capture its [isDestroyed]. *)
Definition mount (p : props) : hook :=
  let state0 := initial (defaultState p) in
  {| state := state0;
     isDestroyed := [false];
     memo := match asyncCb p with
             | Some cb => Some {| source := cb state0; guard := 0; outcome := Pending |}
             | None => None
             end;
     cleanup := Some 0%nat;
     calls := match asyncCb p with
              | Some _ => [state0]
              | None => []
              end;
     mounted := true |}.

(** A later render: a fresh [isDestroyed]; [useState] ignores the default;
    [useMemo] and [useEffect] have the dependency list [[]] and keep what
    the first render left in their cells. *)
Definition rerender (p : props) (h : hook) : hook :=
  {| state := state h;
     isDestroyed := isDestroyed h ++ [false];
     memo := memo h;
     cleanup := cleanup h;
     calls := calls h;
     mounted := mounted h |}.

(** What a render returns: [[state, setState, promise]] (the setter is
    [setState] below). *)
Definition returned (h : hook) : T * option promise :=
  (state h, memo h).

(** The state of the returned computation handle, if there is one. *)
Definition handle (h : hook) : option settled :=
  outcome <$> memo h.

(** React's setter.  An update of an unmounted component is dropped. *)
Definition setState (newState : T) (h : hook) : hook :=
  if mounted h then
    {| state := newState;
       isDestroyed := isDestroyed h;
       memo := memo h;
       cleanup := cleanup h;
       calls := calls h;
       mounted := mounted h |}
  else h.

Definition set_outcome (o : settled) (pr : promise) (h : hook) : hook :=
  {| state := state h;
     isDestroyed := isDestroyed h;
     memo := Some {| source := source pr; guard := guard pr; outcome := o |};
     cleanup := cleanup h;
     calls := calls h;
     mounted := mounted h |}.

(** The promise of [asyncCb] settles.  On fulfilment the [then] callback
    runs; on rejection it is skipped (there is no rejection handler) and the
    derived promise is rejected with the same reason. *)
Definition settle (h : hook) : hook :=
  match memo h with
  | Some pr =>
      match outcome pr with
      | Pending =>
          match source pr with
          | Resolve newState =>
              if default false (isDestroyed h !! guard pr)
              then set_outcome (Fulfilled None) pr h
              else set_outcome (Fulfilled (Some newState)) pr (setState newState h)
          | Reject e => set_outcome (Rejected e) pr h
          end
      | _ => h
      end
  | None => h
  end.

(** Unmount: React runs the effect cleanup, [isDestroyed = true] in the
    scope of the render that created the callback. *)
Definition unmount (h : hook) : hook :=
  {| state := state h;
     isDestroyed := match cleanup h with
                    | Some r => <[r := true]> (isDestroyed h)
                    | None => isDestroyed h
                    end;
     memo := memo h;
     cleanup := None;
     calls := calls h;
     mounted := false |}.

(** What can happen to a mounted instance. *)
Inductive event :=
  | Render (p : props)
  | SetState (newState : T)
  | Settle
  | Unmount.

(** React renders and unmounts mounted components only. *)
Definition step (h : hook) (ev : event) : hook :=
  match ev with
  | Render p => if mounted h then rerender p h else h
  | SetState v => setState v h
  | Settle => settle h
  | Unmount => if mounted h then unmount h else h
  end.

Definition run (evs : list event) (h : hook) : hook :=
  foldl step h evs.

Definition is_settle (ev : event) : bool :=
  match ev with
  | Settle => true
  | _ => false
  end.

Definition is_set (ev : event) : bool :=
  match ev with
  | SetState _ => true
  | _ => false
  end.

(** No event of the list lets the promise settle. *)
Definition unsettled (evs : list event) : bool :=
  forallb (λ ev, negb (is_settle ev)) evs.

(** No event of the list is a call of the returned setter. *)
Definition unset (evs : list event) : bool :=
  forallb (λ ev, negb (is_set ev)) evs.

(** What holds of every instance from its mount on: the [then] callback
    reads the variable of render 0; while the component is mounted the
    pending cleanup writes that same variable, which is still [false];
    once it is unmounted the variable is [true]. *)
Definition consistent (h : hook) : Prop :=
  (∀ pr, memo h = Some pr → guard pr = 0%nat)
  ∧ (if mounted h
     then cleanup h = Some 0%nat ∧ isDestroyed h !! 0%nat = Some false
     else isDestroyed h !! 0%nat = Some true).

Definition is_unmount (ev : event) : bool :=
  match ev with
  | Unmount => true
  | _ => false
  end.

(** No event of the list unmounts the component. *)
Definition stays_mounted (evs : list event) : bool :=
  forallb (λ ev, negb (is_unmount ev)) evs.

End Hook.

Arguments initializer : clear implicits.
Arguments result : clear implicits.
Arguments props : clear implicits.
Arguments settled : clear implicits.
Arguments promise : clear implicits.
Arguments hook : clear implicits.
Arguments event : clear implicits.

End UseAsyncState.

(** ** [useVuex] *)

Module UseVuex.

(** Errors an unsubscribe call can end with. *)
Inductive exn {E : Type} :=
  | TypeError
  | Thrown (e : E).
Arguments exn : clear implicits.

(** How a call completes. *)
Inductive completion {E : Type} :=
  | Normal
  | Abrupt (e : exn E).
Arguments completion : clear implicits.

(** What [StatefulService.store.watch] handed back: not a function at all
    ([undefined]), or a function that removes the watcher and returns, or a
    function that throws. *)
Inductive unsubscribe_handle {E : Type} :=
  | NotCallable
  | Unwatch
  | Throwing (e : E).
Arguments unsubscribe_handle : clear implicits.

(** [unsubscribe()] *)
Definition call {E : Type} (u : unsubscribe_handle E) : completion E :=
  match u with
  | NotCallable => Abrupt TypeError
  | Unwatch => Normal
  | Throwing e => Abrupt (Thrown e)
  end.

Section Hook.
Context {St V E : Type}.

(** The store's test for telling a watcher that the watched value changed
    (old value, new value).  The store is not part of the hook. *)
Variable changed : V → V → bool.

(** The two overloads: [useVuex(selector)] and [useVuex(target, selector)].
    A selector reads the store, so it is a function of the store's state. *)
Inductive args :=
  | Selector (selector : St → V)
  | TargetSelector {T : Type} (target : T) (selector : T → St → V).

(** [args.length === 1 ? args[0] : () => args[1](args[0])] *)
Definition selector_of (a : args) : St → V :=
  match a with
  | Selector f => f
  | TargetSelector t f => λ st, f t st
  end.

(** Entries of the subscription journal. *)
Inductive lifecycle :=
  | Watched
  | Unsubscribed (c : completion E).

(** The cells of one hook instance and its footprint in the store.
    - [state]: the [useState] cell;
    - [watcher]: the getter [() => selector()] registered with the store,
      while it is registered;
    - [seen]: the value the store last computed for that getter;
    - [unsubscribe]: what [watch] returned, captured by the effect cleanup;
    - [journal]: the calls made to the store, oldest first;
    - [mounted]: whether the component is still mounted. *)
Record hook := Hook {
  state : V;
  watcher : option (St → V);
  seen : V;
  unsubscribe : unsubscribe_handle E;
  journal : list lifecycle;
  mounted : bool;
}.

(** First render and its commit.  [useState(selector)] calls the selector
    on the store as it is during the render ([at_render]); the effect runs
    after the commit and registers the watcher, whose first value the store
    computes from its state then ([at_effect]).  [u] is what [watch]
    returns. *)
Definition mount (a : args) (at_render at_effect : St) (u : unsubscribe_handle E) : hook :=
  let selector := selector_of a in
  {| state := selector at_render;
     watcher := Some (λ st, selector st);
     seen := selector at_effect;
     unsubscribe := u;
     journal := [Watched];
     mounted := true |}.

(** A later render computes [selector] from its arguments again, but
    [useState] ignores its initializer and the effect, with the dependency
    list [[]], is not run again: no cell changes. *)
Definition rerender (a : args) (h : hook) : hook :=
  let selector := selector_of a in
  h.

(** What a render returns. *)
Definition returned (h : hook) : V := state h.

(** React's setter.  An update of an unmounted component is dropped. *)
Definition setState (newState : V) (h : hook) : hook :=
  if mounted h then
    {| state := newState;
       watcher := watcher h;
       seen := seen h;
       unsubscribe := unsubscribe h;
       journal := journal h;
       mounted := mounted h |}
  else h.

(** The store went to state [st]: it evaluates the registered getter and,
    if the value changed, calls [newState => setState(newState)]. *)
Definition notify (st : St) (h : hook) : hook :=
  match watcher h with
  | Some getter =>
      let newState := getter st in
      if changed (seen h) newState then
        let h' := setState newState h in
        {| state := state h';
           watcher := watcher h';
           seen := newState;
           unsubscribe := unsubscribe h';
           journal := journal h';
           mounted := mounted h' |}
      else h
  | None => h
  end.

(** The effect cleanup [() => { unsubscribe(); }] and how it completes. *)
Definition cleanup (h : hook) : completion E :=
  call (unsubscribe h).

(** Unmount runs the cleanup.  The watcher is removed only if the handle was
    the store's real unsubscribe function. *)
Definition unmount (h : hook) : hook :=
  {| state := state h;
     watcher := match unsubscribe h with
                | Unwatch => None
                | _ => watcher h
                end;
     seen := seen h;
     unsubscribe := unsubscribe h;
     journal := journal h ++ [Unsubscribed (cleanup h)];
     mounted := false |}.

Inductive event :=
  | Render (a : args)
  | Mutation (st : St)
  | Unmount.

Definition step (h : hook) (ev : event) : hook :=
  match ev with
  | Render a => if mounted h then rerender a h else h
  | Mutation st => notify st h
  | Unmount => if mounted h then unmount h else h
  end.

Definition run (evs : list event) (h : hook) : hook :=
  foldl step h evs.

(** The values the renders of a run return, oldest first. *)
Fixpoint outputs (evs : list event) (h : hook) : list V :=
  match evs with
  | [] => []
  | ev :: rest =>
      let h' := step h ev in
      match ev with
      | Render _ => if mounted h then returned h' :: outputs rest h' else outputs rest h'
      | _ => outputs rest h'
      end
  end.

(** The one-argument call that the spec equates a call with: the selector
    closes over the target. *)
Definition closure_form (a : args) : args :=
  match a with
  | Selector f => Selector f
  | TargetSelector t f => Selector (λ st, f t st)
  end.

Definition closure_form_event (ev : event) : event :=
  match ev with
  | Render a => Render (closure_form a)
  | other => other
  end.

Definition is_unmount (ev : event) : bool :=
  match ev with
  | Unmount => true
  | _ => false
  end.

(** No event of the list unmounts the component. *)
Definition stays_mounted (evs : list event) : bool :=
  forallb (λ ev, negb (is_unmount ev)) evs.

(** Every store state of the list gives [getter] a value that the store
    does not tell apart from [v]. *)
Definition quiet (getter : St → V) (v : V) (evs : list event) : bool :=
  forallb (λ ev, match ev with
                 | Mutation st => negb (changed v (getter st))
                 | _ => true
                 end) evs.

End Hook.

Arguments args : clear implicits.
Arguments lifecycle : clear implicits.
Arguments hook : clear implicits.
Arguments event : clear implicits.

End UseVuex.

(** ** [RecordingHistory.tsx] *)

Module RecordingHistory.
Import JS.

(** [RecordingModeService.state.uploadInfo].  Its declaration is outside the
    page; the page reads [uploading], [uploadedBytes], [totalBytes] and
    [error], the byte counts being numbers that may be missing. *)
Record upload_info := UploadInfo {
  uploading : bool;
  uploadedBytes : option number;
  totalBytes : option number;
  error : option string;
}.

Inductive ENotificationType :=
  | INFO
  | WARNING
  | SUCCESS.

Record notification := Notification {
  message : string;
  type : ENotificationType;
  lifeTime : Z;
}.

(** Calls that reach [RecordingModeService.actions.return]. *)
Inductive request :=
  | UploadToYoutube (filename : string)
  | UploadToStorage (filename platform : string).

(** The controller with the service state it reads and writes.
    - [linkedPlatforms]: [UserService.views.linkedPlatforms];
    - [slid]: [UserService.views.auth?.slid?.id];
    - [showSLIDModal]: the controller's own store;
    - [notifications]: what was pushed to [NotificationsService];
    - [requests]: the uploads asked of [RecordingModeService]. *)
Record controller := Controller {
  uploadInfo : upload_info;
  linkedPlatforms : list string;
  slid : value;
  showSLIDModal : bool;
  notifications : list notification;
  requests : list request;
}.

Record upload_option := UploadOption {
  label : string;
  option_value : string;
  icon : string;
}.

Section Page.

(** [$t], the translation function of the i18n service. *)
Variable translate : string → string.

Definition hasYoutube (c : controller) : bool :=
  bool_decide ("youtube" ∈ linkedPlatforms c).

Definition hasSLID (c : controller) : bool :=
  truthy (slid c).

Definition uploadOptions (c : controller) : list upload_option :=
  let opts :=
    [ {| label := translate "Clip"; option_value := "crossclip"; icon := "icon-editor-7" |};
      {| label := translate "Transcribe"; option_value := "typestudio"; icon := "icon-mic" |};
      {| label := translate "Edit"; option_value := "videoeditor"; icon := "icon-play-round" |} ] in
  if hasYoutube c
  then {| label := translate "Upload"; option_value := "youtube"; icon := "icon-youtube" |} :: opts
  else opts.

Definition push (n : notification) (c : controller) : controller :=
  {| uploadInfo := uploadInfo c;
     linkedPlatforms := linkedPlatforms c;
     slid := slid c;
     showSLIDModal := showSLIDModal c;
     notifications := notifications c ++ [n];
     requests := requests c |}.

Definition postError (msg : string) (c : controller) : controller :=
  push {| message := msg; type := WARNING; lifeTime := 5000 |} c.

Definition send (r : request) (c : controller) : controller :=
  {| uploadInfo := uploadInfo c;
     linkedPlatforms := linkedPlatforms c;
     slid := slid c;
     showSLIDModal := showSLIDModal c;
     notifications := notifications c;
     requests := requests c ++ [r] |}.

(** The synchronous part of [uploadToYoutube]: the request.  What follows
    the [await] (opening the link once an id comes back) touches none of
    the controller's state. *)
Definition uploadToYoutube (filename : string) (c : controller) : controller :=
  send (UploadToYoutube filename) c.

Definition uploadToStorage (filename platform : string) (c : controller) : controller :=
  send (UploadToStorage filename platform) c.

(** [store.setState(s => { s.showSLIDModal = true; })] *)
Definition open_SLID_modal (c : controller) : controller :=
  {| uploadInfo := uploadInfo c;
     linkedPlatforms := linkedPlatforms c;
     slid := slid c;
     showSLIDModal := true;
     notifications := notifications c;
     requests := requests c |}.

Definition handleSelect (filename platform : string) (c : controller) : controller :=
  if uploading (uploadInfo c) then postError (translate "Upload already in progress") c
  else if String.eqb platform "youtube" then uploadToYoutube filename c
  else if hasSLID c then uploadToStorage filename platform c
  else open_SLID_modal c.

(** [!x] for a number that may be [undefined]. *)
Definition falsy (x : option number) : bool :=
  match x with
  | None => true
  | Some n => negb (number_truthy n)
  end.

(** The division [uploadedBytes / totalBytes], kept as written. *)
Record quotient := Quotient {
  dividend : option number;
  divisor : option number;
}.

(** What [ExportModal] renders: the empty fragment, or the modal with the
    progress bar ([timeTarget] in milliseconds) and the cancel button. *)
Inductive element :=
  | Fragment
  | ProgressModal (percent : quotient) (timeTarget : Z).

Definition ExportModal (c : controller) : element :=
  let uploadedBytes := uploadedBytes (uploadInfo c) in
  let totalBytes := totalBytes (uploadInfo c) in
  if falsy uploadedBytes || falsy totalBytes then Fragment
  else ProgressModal {| dividend := uploadedBytes; divisor := totalBytes |} (1000 * 60).

(** What [SLIDModal] renders: the empty fragment, or the backdrop with the
    prompt to get a Streamlabs ID. *)
Inductive slid_element :=
  | NoPrompt
  | GetSLID.

Definition SLIDModal (c : controller) : slid_element :=
  if negb (showSLIDModal c) then NoPrompt else GetSLID.

(** [/needle/.test(hay)] for a pattern of plain characters: [needle] occurs
    somewhere in [hay]. *)
Fixpoint occurs (needle hay : string) : bool :=
  String.prefix needle hay
  || match hay with
     | EmptyString => false
     | String _ rest => occurs needle rest
     end.

(** The body of the effect of [RecordingHistory]: an error that is a
    non-empty string and does not mention [TypeError] is posted.  ([error]
    is a string whenever it is present, so the [typeof] test adds nothing
    here.) *)
Definition surface_error (info : upload_info) (c : controller) : controller :=
  match error info with
  | Some e =>
      if negb (String.eqb e "") && negb (occurs "TypeError" e)
      then postError e c
      else c
  | None => c
  end.



End Page.

End RecordingHistory.

(* ===================================================================== *)
(** * Part II: properties *)
(* ===================================================================== *)

(** ** Records *)

Section RecordFacts.
Import JS.

(** [{...a, ...b}] reads [b] first and falls back on [a]. *)
Lemma spread2_lookup (a b : record) (k : string) :
  spread2 a b !! k = match b !! k with
                     | Some v => Some v
                     | None => a !! k
                     end.
Proof.
  unfold spread2. destruct (b !! k) as [v|] eqn:Hb.
  - by apply lookup_union_Some_l.
  - by apply lookup_union_r.
Qed.

(** A one-field patch is a computed-key assignment. *)
Lemma spread2_singleton (a : record) (k : string) (v : value) :
  spread2 a {[k := v]} = spread_set a k v.
Proof. unfold spread2, spread_set. by rewrite insert_union_singleton_l. Qed.

Lemma spread_set_lookup (a : record) (k k' : string) (v : value) :
  spread_set a k v !! k' = if decide (k = k') then Some v else a !! k'.
Proof. unfold spread_set. apply lookup_insert. Qed.

End RecordFacts.

(** ** [useStateHelper] *)

Section StateHelperFacts.
Import JS UseStateHelper.

Lemma setState_cells (n : record) (h : hook) :
  setState n h = {| s := s h; raw := n; stateRef := n |}.
Proof. reflexivity. Qed.

Lemma mount_synced (i : initializer) : synced (mount i).
Proof. reflexivity. Qed.

Lemma step_synced (h : hook) (a : action) : synced h → synced (step h a).
Proof. destruct a; unfold synced; simpl; auto. Qed.

Lemma run_synced (acts : list action) (h : hook) : synced h → synced (run acts h).
Proof.
  revert h. induction acts as [|a acts IH]; intros h Hh; simpl.
  - exact Hh.
  - apply IH, step_synced, Hh.
Qed.

(** Every write goes through [setState], so whatever the component did since
    the mount, [stateRef.current] is the committed state. *)
Lemma reachable_synced (i : initializer) (acts : list action) :
  stateRef (run acts (mount i)) = raw (run acts (mount i)).
Proof. apply run_synced, mount_synced. Qed.

(** Only a render changes what the closures of the last render see. *)
Lemma updateState_keeps_snapshot (p : record) (h : hook) : s (updateState p h) = s h.
Proof. reflexivity. Qed.

(** C2.  Two patches in a row, with no render in between, compose: after
    [updateState(q)] and then [updateState(p)] the committed state, the
    mirror and the state the next render returns are all the original
    record with [q] and then [p] merged into it; field by field, [p] wins
    over [q] and [q] over the original. *)
Theorem updateState_twice_no_lost_update (i : initializer) (acts : list action)
    (q p : record) :
  let h := run acts (mount i) in
  let h' := updateState p (updateState q h) in
  raw h' = spread2 (spread2 (raw h) q) p
  ∧ stateRef h' = raw h'
  ∧ s (render h') = spread2 (spread2 (raw h) q) p
  ∧ ∀ k, raw h' !! k = match p !! k with
                        | Some v => Some v
                        | None => match q !! k with
                                  | Some v => Some v
                                  | None => raw h !! k
                                  end
                        end.
Proof.
  intros h h'. subst h'.
  assert (Hsync : stateRef h = raw h) by apply reachable_synced.
  assert (Hraw : raw (updateState p (updateState q h)) = spread2 (spread2 (raw h) q) p).
  { unfold updateState at 1. rewrite setState_cells. simpl. by rewrite Hsync. }
  split; [exact Hraw|]. split; [reflexivity|]. split.
  - simpl. by rewrite Hsync.
  - intros k. rewrite Hraw, !spread2_lookup. reflexivity.
Qed.

(** [onChange] of a binding commits the snapshot of the render that made
    the binding, with the one field replaced. *)
Lemma onChange_commits_snapshot (h : hook) (x : string) (v : value) :
  onChange (bind h x) v h
  = {| s := s h; raw := spread_set (s h) x v; stateRef := spread_set (s h) x v |}.
Proof. reflexivity. Qed.

Lemma updateState_field (h : hook) (x : string) (v : value) :
  updateState {[x := v]} h
  = {| s := s h; raw := spread_set (stateRef h) x v; stateRef := spread_set (stateRef h) x v |}.
Proof. unfold updateState. by rewrite spread2_singleton. Qed.

(** Right after a render, when the mirror is the snapshot, [onChange] and
    [updateState] with the one-field patch are the same write. *)
Lemma onChange_is_updateState_after_render (h : hook) (x : string) (v : value) :
  stateRef h = s h → onChange (bind h x) v h = updateState {[x := v]} h.
Proof. intros Heq. rewrite onChange_commits_snapshot, updateState_field, Heq. reflexivity. Qed.

Lemma onChange_after_render (i : initializer) (acts : list action) (x : string) (v : value) :
  let h := render (run acts (mount i)) in
  onChange (bind h x) v h = updateState {[x := v]} h.
Proof.
  intros h. apply onChange_is_updateState_after_render.
  subst h. simpl. apply reachable_synced.
Qed.

(** Whatever [createBinding] computes from the two arguments the hook gives
    it, the record handed to the setter is a function of the snapshot, the
    field and the new value.  No such function commits what [updateState]
    commits in every state: two instances with the same snapshot and
    different mirrors tell them apart. *)
Lemma no_snapshot_binding_matches_updateState (g : record → string → value → record) :
  ¬ ∀ (h : hook) (x : string) (v : value),
      raw (setState (g (s h) x v) h) = raw (updateState {[x := v]} h).
Proof.
  intros Hall.
  pose (h1 := {| s := ∅; raw := ∅; stateRef := ∅ |}).
  pose (h2 := {| s := ∅; raw := {["a" := VNull]}; stateRef := {["a" := VNull]} |}).
  pose proof (Hall h1 "x" VNull) as H1.
  pose proof (Hall h2 "x" VNull) as H2.
  simpl in H1, H2. rewrite H1 in H2.
  apply (f_equal (λ m : record, m !! "a")) in H2.
  rewrite !spread2_lookup in H2. vm_compute in H2. discriminate.
Qed.

(** C3, evaluated.  The state is [{a: 1, x: 0}].  In one tick the component
    calls [updateState({a: 2})] and then changes field [x] to [5].  Through
    [updateState({x: 5})] the result is [{a: 2, x: 5}]; through
    [bind('x').onChange(5)] it is [{a: 1, x: 5}]: the update of [a] is
    lost, in the committed state and in the mirror. *)
Theorem bind_onChange_loses_pending_update :
  let original : record := <["a" := VNum (Num 1)]> {["x" := VNum (Num 0)]} in
  let h := updateState {["a" := VNum (Num 2)]} (mount (Value original)) in
  let by_update := updateState {["x" := VNum (Num 5)]} h in
  let by_binding := onChange (bind h "x") (VNum (Num 5)) h in
  raw by_update = <["a" := VNum (Num 2)]> {["x" := VNum (Num 5)]}
  ∧ raw by_binding = <["a" := VNum (Num 1)]> {["x" := VNum (Num 5)]}
  ∧ stateRef by_binding = raw by_binding
  ∧ raw by_binding !! "a" ≠ raw by_update !! "a"
  ∧ raw by_binding ≠ raw by_update.
Proof.
  cbv zeta.
  assert (Hu : raw (updateState {["x" := VNum (Num 5)]}
                 (updateState {["a" := VNum (Num 2)]}
                    (mount (Value (<["a" := VNum (Num 1)]> {["x" := VNum (Num 0)]})))))
               = <["a" := VNum (Num 2)]> {["x" := VNum (Num 5)]}).
  { apply map_eq. intros k. simpl. rewrite !spread2_lookup.
    destruct (decide (k = "x")) as [->|Hx]; [reflexivity|].
    destruct (decide (k = "a")) as [->|Ha]; [reflexivity|].
    by simplify_map_eq. }
  assert (Hb : raw (onChange (bind (updateState {["a" := VNum (Num 2)]}
                    (mount (Value (<["a" := VNum (Num 1)]> {["x" := VNum (Num 0)]})))) "x")
                 (VNum (Num 5))
                 (updateState {["a" := VNum (Num 2)]}
                    (mount (Value (<["a" := VNum (Num 1)]> {["x" := VNum (Num 0)]})))))
               = <["a" := VNum (Num 1)]> {["x" := VNum (Num 5)]}).
  { apply map_eq. intros k. simpl. unfold spread_set.
    destruct (decide (k = "x")) as [->|Hx]; [reflexivity|].
    destruct (decide (k = "a")) as [->|Ha]; [reflexivity|].
    by simplify_map_eq. }
  split; [exact Hu|]. split; [exact Hb|]. split; [reflexivity|].
  rewrite Hu, Hb. split.
  - vm_compute. discriminate.
  - intros Heq. apply (f_equal (λ m : record, m !! "a")) in Heq.
    vm_compute in Heq. discriminate.
Qed.

Lemma setItem_commits (d k : string) (v : value) (h : hook) :
  raw (setItem d k v h)
  = <[d := VObj (<[k := v]> (spread (get (stateRef h) d)))]> (stateRef h)
  ∧ stateRef (setItem d k v h) = raw (setItem d k v h).
Proof. split; reflexivity. Qed.

(** C7.  When field [d] of the state holds the nested record [n],
    [setItem(d, k, v)] commits the state in which [d] holds [n] with entry
    [k] set to [v]: every other top-level field and every other entry of
    the nested record is what it was, and the mirror holds the same
    record. *)
Theorem setItem_frame (i : initializer) (acts : list action)
    (d k : string) (v : value) (n : record) :
  let h := run acts (mount i) in
  let h' := setItem d k v h in
  raw h !! d = Some (VObj n) →
  raw h' = <[d := VObj (<[k := v]> n)]> (raw h)
  ∧ stateRef h' = raw h'
  ∧ (∀ f, f ≠ d → raw h' !! f = raw h !! f)
  ∧ ∃ n', raw h' !! d = Some (VObj n')
          ∧ n' !! k = Some v
          ∧ ∀ k', k' ≠ k → n' !! k' = n !! k'.
Proof.
  intros h h' Hd. subst h'.
  assert (Hsync : stateRef h = raw h) by apply reachable_synced.
  destruct (setItem_commits d k v h) as [Hraw Href].
  assert (Hn : spread (get (stateRef h) d) = n).
  { unfold get. rewrite Hsync, Hd. reflexivity. }
  rewrite Hn, Hsync in Hraw.
  split; [exact Hraw|]. split; [exact Href|]. split.
  - intros f Hf. rewrite Hraw. by apply lookup_insert_ne.
  - exists (<[k := v]> n). rewrite Hraw. split; [apply lookup_insert_eq|]. split.
    + apply lookup_insert_eq.
    + intros k' Hk'. by apply lookup_insert_ne.
Qed.

(** [{visible: true, sizes: {w: 1, h: 2}}], then [setItem('sizes', 'w', 7)]. *)
Lemma setItem_frame_witness :
  let sizes : record := <["w" := VNum (Num 1)]> {["h" := VNum (Num 2)]} in
  let original : record := <["visible" := VBool true]> {["sizes" := VObj sizes]} in
  let h' := setItem "sizes" "w" (VNum (Num 7)) (run [] (mount (Value original))) in
  raw h' = <["sizes" := VObj (<["w" := VNum (Num 7)]> sizes)]> original
  ∧ stateRef h' = raw h'
  ∧ (∀ f, f ≠ "sizes" → raw h' !! f = original !! f)
  ∧ ∃ n', raw h' !! "sizes" = Some (VObj n')
          ∧ n' !! "w" = Some (VNum (Num 7))
          ∧ ∀ k', k' ≠ "w" → n' !! k' = sizes !! k'.
Proof.
  intros sizes original.
  exact (setItem_frame (Value original) [] "sizes" "w" (VNum (Num 7)) sizes eq_refl).
Defined.

(** A field that holds no record contributes nothing to the spread: the
    nested record then has the one entry, and the other top-level fields
    are still untouched. *)
Lemma setItem_on_missing_field (d k : string) (v : value) (h : hook) :
  stateRef h !! d = None →
  raw (setItem d k v h) = <[d := VObj {[k := v]}]> (stateRef h).
Proof.
  intros Hd. destruct (setItem_commits d k v h) as [-> _].
  unfold get. rewrite Hd. simpl. by rewrite insert_empty.
Qed.

End StateHelperFacts.

(** ** [useAsyncState] *)

Section AsyncStateFacts.
Import UseAsyncState.
Context {T E : Type}.
Implicit Types (h : hook T E) (p : props T E) (ev : event T E) (evs : list (event T E)).

Lemma run_app evs1 evs2 h : run (evs1 ++ evs2) h = run evs2 (run evs1 h).
Proof. apply foldl_app. Qed.

Lemma run_cons ev evs h : run (ev :: evs) h = run evs (step h ev).
Proof. reflexivity. Qed.

Lemma unsettled_cons ev evs :
  unsettled (ev :: evs) = true → is_settle ev = false ∧ unsettled evs = true.
Proof.
  unfold unsettled. simpl. intros [H1 H2]%andb_true_iff.
  split; [by apply negb_true_iff|exact H2].
Qed.

(** *** The invariant *)

Lemma mount_consistent p : consistent (mount p).
Proof.
  split.
  - intros pr. simpl. destruct (asyncCb p); [|discriminate].
    by intros [= <-].
  - simpl. done.
Qed.

Lemma setState_consistent (v : T) h : consistent h → consistent (setState v h).
Proof.
  unfold setState. destruct (mounted h) eqn:Hm; [|done].
  intros [Hg Hc]. rewrite Hm in Hc. split; simpl; done.
Qed.

Lemma set_outcome_consistent (o : settled T E) (pr : promise T E) h :
  guard pr = 0%nat → consistent h → consistent (set_outcome o pr h).
Proof.
  intros Hpr [Hg Hc]. split; [|exact Hc].
  simpl. by intros ? [= <-].
Qed.

Lemma settle_consistent h : consistent h → consistent (settle h).
Proof.
  intros Hh. unfold settle.
  destruct (memo h) as [pr|] eqn:Hmemo; [|done].
  assert (Hpr : guard pr = 0%nat) by (by apply Hh).
  destruct (outcome pr); [|done..].
  destruct (source pr) as [v|e].
  - destruct (default false (isDestroyed h !! guard pr)).
    + by apply set_outcome_consistent.
    + by apply set_outcome_consistent, setState_consistent.
  - by apply set_outcome_consistent.
Qed.

Lemma step_consistent h ev : consistent h → consistent (step h ev).
Proof.
  intros Hh. destruct ev as [p|v| |]; simpl.
  - destruct (mounted h) eqn:Hm; [|done].
    destruct Hh as [Hg Hc]. rewrite Hm in Hc. destruct Hc as [Hc Hd].
    split; simpl; [done|]. rewrite Hm. split; [done|].
    by apply lookup_app_l_Some.
  - by apply setState_consistent.
  - by apply settle_consistent.
  - destruct (mounted h) eqn:Hm; [|done].
    destruct Hh as [Hg Hc]. rewrite Hm in Hc. destruct Hc as [Hc Hd].
    split; simpl; [done|]. rewrite Hc.
    apply list_lookup_insert_eq. by eapply lookup_lt_Some.
Qed.

Lemma run_consistent evs h : consistent h → consistent (run evs h).
Proof.
  revert h. induction evs as [|ev evs IH]; intros h Hh; [done|].
  rewrite run_cons. by apply IH, step_consistent.
Qed.

(** *** What the events leave alone *)

Lemma setState_memo (v : T) h : memo (setState v h) = memo h.
Proof. unfold setState. by destruct (mounted h). Qed.

Lemma setState_calls (v : T) h : calls (setState v h) = calls h.
Proof. unfold setState. by destruct (mounted h). Qed.

Lemma step_calls h ev : calls (step h ev) = calls h.
Proof.
  destruct ev as [p|v| |]; simpl.
  - by destruct (mounted h).
  - apply setState_calls.
  - unfold settle. destruct (memo h) as [pr|]; [|done].
    destruct (outcome pr); [|done..].
    destruct (source pr); [|done].
    destruct (default false _); [done|]. simpl. apply setState_calls.
  - by destruct (mounted h).
Qed.

Lemma run_calls evs h : calls (run evs h) = calls h.
Proof.
  revert h. induction evs as [|ev evs IH]; intros h; [done|].
  by rewrite run_cons, IH, step_calls.
Qed.

Lemma step_source h ev : source <$> memo (step h ev) = source <$> memo h.
Proof.
  destruct ev as [p|v| |]; simpl.
  - by destruct (mounted h).
  - by rewrite setState_memo.
  - unfold settle. destruct (memo h) as [pr|] eqn:Hmemo; [|by rewrite Hmemo].
    destruct (outcome pr); [|by rewrite Hmemo..].
    destruct (source pr) eqn:Hsrc; [|by simpl; rewrite Hsrc].
    destruct (default false _); simpl; by rewrite Hsrc.
  - by destruct (mounted h).
Qed.

Lemma run_source evs h : source <$> memo (run evs h) = source <$> memo h.
Proof.
  revert h. induction evs as [|ev evs IH]; intros h; [done|].
  by rewrite run_cons, IH, step_source.
Qed.

Lemma step_unsettled_memo h ev : is_settle ev = false → memo (step h ev) = memo h.
Proof.
  destruct ev as [p|v| |]; simpl; intros Hev; try discriminate.
  - by destruct (mounted h).
  - apply setState_memo.
  - by destruct (mounted h).
Qed.

Lemma run_unsettled_memo evs h : unsettled evs = true → memo (run evs h) = memo h.
Proof.
  revert h. induction evs as [|ev evs IH]; intros h Hevs; [done|].
  apply unsettled_cons in Hevs as [Hev Hevs].
  by rewrite run_cons, IH, step_unsettled_memo.
Qed.

(** Nothing but the settling of the promise reaches an unmounted instance. *)
Lemma step_unmounted h ev : mounted h = false → is_settle ev = false → step h ev = h.
Proof.
  intros Hm. destruct ev as [p|v| |]; simpl; intros Hev; try discriminate.
  - by rewrite Hm.
  - unfold setState. by rewrite Hm.
  - by rewrite Hm.
Qed.

Lemma run_unmounted evs h : mounted h = false → unsettled evs = true → run evs h = h.
Proof.
  intros Hm. induction evs as [|ev evs IH]; intros Hevs; [done|].
  apply unsettled_cons in Hevs as [Hev Hevs].
  rewrite run_cons, step_unmounted by done. by apply IH.
Qed.

Lemma step_Unmount_state h : state (step h Unmount) = state h.
Proof. simpl. by destruct (mounted h). Qed.

Lemma step_Unmount_memo h : memo (step h Unmount) = memo h.
Proof. simpl. by destruct (mounted h). Qed.

Lemma step_Unmount_mounted h : mounted (step h Unmount) = false.
Proof. simpl. by destruct (mounted h) eqn:Hm. Qed.

(** Without calls of the setter and without the promise settling, the state
    is the one the first render computed. *)
Lemma run_state_default evs h :
  unsettled evs = true → unset evs = true → state (run evs h) = state h.
Proof.
  revert h. induction evs as [|ev evs IH]; intros h Hevs Hset; [done|].
  apply unsettled_cons in Hevs as [Hev Hevs].
  unfold unset in Hset. simpl in Hset. apply andb_true_iff in Hset as [Hs Hset].
  rewrite run_cons, IH by done.
  destruct ev as [p|v| |]; simpl in *; try discriminate.
  - by destruct (mounted h).
  - by destruct (mounted h).
Qed.

(** *** Settling *)

(** The promise is fulfilled after the unmount: [null], and no write. *)
Lemma settle_destroyed h (pr : promise T E) (v : T) :
  consistent h → mounted h = false →
  memo h = Some pr → outcome pr = Pending → source pr = Resolve v →
  settle h = set_outcome (Fulfilled None) pr h.
Proof.
  intros [Hg Hc] Hm Hmemo Hout Hsrc. rewrite Hm in Hc.
  unfold settle. rewrite Hmemo, Hout, Hsrc, (Hg pr Hmemo), Hc. reflexivity.
Qed.

(** The promise is fulfilled while the component is mounted: the value is
    written and passed on. *)
Lemma settle_alive h (pr : promise T E) (v : T) :
  consistent h → mounted h = true →
  memo h = Some pr → outcome pr = Pending → source pr = Resolve v →
  state (settle h) = v ∧ handle (settle h) = Some (Fulfilled (Some v)).
Proof.
  intros [Hg Hc] Hm Hmemo Hout Hsrc. rewrite Hm in Hc. destruct Hc as [_ Hd].
  unfold settle. rewrite Hmemo, Hout, Hsrc, (Hg pr Hmemo), Hd. simpl.
  unfold setState. rewrite Hm. done.
Qed.

(** A settled promise stays as it is. *)
Lemma settle_settled h (pr : promise T E) :
  memo h = Some pr → outcome pr ≠ Pending → settle h = h.
Proof.
  intros Hmemo Hout. unfold settle. rewrite Hmemo.
  by destruct (outcome pr).
Qed.

Lemma step_rejected h ev (e : E) :
  handle h = Some (Rejected e) → handle (step h ev) = Some (Rejected e).
Proof.
  unfold handle. intros Hh.
  destruct (memo h) as [pr|] eqn:Hmemo; [|discriminate].
  simpl in Hh. injection Hh as Hout.
  destruct ev as [p|v| |]; simpl.
  - destruct (mounted h); simpl; by rewrite Hmemo, <- Hout.
  - by rewrite setState_memo, Hmemo, <- Hout.
  - rewrite (settle_settled h pr) by (done || by rewrite Hout).
    by rewrite Hmemo, <- Hout.
  - destruct (mounted h); simpl; by rewrite Hmemo, <- Hout.
Qed.

Lemma run_rejected evs h (e : E) :
  handle h = Some (Rejected e) → handle (run evs h) = Some (Rejected e).
Proof.
  revert h. induction evs as [|ev evs IH]; intros h Hh; [done|].
  rewrite run_cons. by apply IH, step_rejected.
Qed.

(** *** The claims *)

(** C1.  The initializer is pending when the component unmounts and is
    fulfilled later, whatever happens in between.  Then the [then] callback
    finds [isDestroyed] set: the state is the one held at the unmount (the
    default, if the setter was never called), the result [r] is not
    written, and the returned promise is fulfilled with [null]. *)
Theorem unmount_before_resolve_discards (d : initializer T) (cb : T → result T E)
    (r : T) evs1 evs2 :
  cb (initial d) = Resolve r →
  unsettled evs1 = true →
  unsettled evs2 = true →
  let h0 := mount (Props d (Some cb)) in
  let at_unmount := run evs1 h0 in
  let final := run (evs1 ++ Unmount :: evs2 ++ [Settle]) h0 in
  handle at_unmount = Some Pending
  ∧ state final = state at_unmount
  ∧ handle final = Some (Fulfilled None)
  ∧ (unset evs1 = true → state final = initial d).
Proof.
  intros Hcb Hevs1 Hevs2 h0 at_unmount final.
  assert (Hmemo1 : memo at_unmount
                   = Some {| source := cb (initial d); guard := 0; outcome := Pending |}).
  { subst at_unmount. by rewrite run_unsettled_memo. }
  assert (Hc1 : consistent at_unmount) by apply run_consistent, mount_consistent.
  set (gone := step at_unmount Unmount).
  assert (Hfinal : final = settle gone).
  { subst final gone at_unmount. rewrite run_app, run_cons, run_app.
    rewrite (run_unmounted evs2) by (apply step_Unmount_mounted || done).
    reflexivity. }
  assert (Hgone : settle gone
                  = set_outcome (Fulfilled None)
                      {| source := cb (initial d); guard := 0; outcome := Pending |} gone).
  { apply (settle_destroyed gone _ r).
    - by apply step_consistent.
    - apply step_Unmount_mounted.
    - subst gone. by rewrite step_Unmount_memo.
    - reflexivity.
    - exact Hcb. }
  assert (Hstate : state final = state at_unmount).
  { rewrite Hfinal, Hgone. simpl. apply step_Unmount_state. }
  split; [unfold handle; by rewrite Hmemo1|].
  split; [exact Hstate|].
  split; [by rewrite Hfinal, Hgone|].
  intros Hset. rewrite Hstate. subst at_unmount.
  by rewrite run_state_default.
Qed.

(** The same initializer, done while the component is mounted, is applied. *)
Example resolve_while_mounted_applies :
  let cb : nat → result nat unit := λ n, Resolve (n + 41)%nat in
  let final := run [Render (Props (Value 7%nat) None); Settle]
                   (mount (Props (Value 1%nat) (Some cb))) in
  state final = 42%nat ∧ handle final = Some (Fulfilled (Some 42%nat)).
Proof. split; reflexivity. Qed.

(** C5.  The initializer given to the first render is invoked by that
    render, with the initial state as its argument, and by nothing after
    it: whatever follows (renders with other callbacks included), the list
    of invocations is that one call, and the promise the hook keeps is the
    one that call returned. *)
Theorem initializer_invoked_once (d : initializer T) (cb : T → result T E) evs :
  let h0 := mount (Props d (Some cb)) in
  state h0 = initial d
  ∧ calls h0 = [initial d]
  ∧ calls (run evs h0) = [initial d]
  ∧ source <$> memo (run evs h0) = Some (cb (initial d)).
Proof.
  intros h0. split; [reflexivity|]. split; [reflexivity|]. split.
  - by rewrite run_calls.
  - by rewrite run_source.
Qed.

(** An initializer that only a later render supplies is never invoked. *)
Lemma late_initializer_ignored (d : initializer T) evs :
  calls (run evs (mount (Props d None))) = []
  ∧ memo (run evs (mount (Props d None))) = None.
Proof.
  split; [by rewrite run_calls|].
  pose proof (run_source evs (mount (Props d None))) as Hs. simpl in Hs.
  by destruct (memo (run evs (mount (Props d None)))).
Qed.

(** C6.  The initializer rejects with [e].  When that happens the returned
    promise is rejected with [e] and the state is not touched; from then
    on the promise stays rejected and a further settling does nothing. *)
Theorem rejection_reaches_handle (d : initializer T) (cb : T → result T E)
    (e : E) evs evs' :
  cb (initial d) = Reject e →
  unsettled evs = true →
  let h := run evs (mount (Props d (Some cb))) in
  let h' := step h Settle in
  handle h = Some Pending
  ∧ handle h' = Some (Rejected e)
  ∧ state h' = state h
  ∧ handle (run evs' h') = Some (Rejected e)
  ∧ step (run evs' h') Settle = run evs' h'.
Proof.
  intros Hcb Hevs h h'.
  assert (Hmemo : memo h = Some {| source := cb (initial d); guard := 0; outcome := Pending |}).
  { subst h. by rewrite run_unsettled_memo. }
  assert (Hh' : h' = set_outcome (Rejected e)
                       {| source := cb (initial d); guard := 0; outcome := Pending |} h).
  { subst h'. simpl. unfold settle. rewrite Hmemo. simpl. by rewrite Hcb. }
  assert (Hrej : handle h' = Some (Rejected e)) by (by rewrite Hh').
  assert (Hlater : handle (run evs' h') = Some (Rejected e)) by (by apply run_rejected).
  split; [unfold handle; by rewrite Hmemo|].
  split; [exact Hrej|].
  split; [by rewrite Hh'|].
  split; [exact Hlater|].
  unfold handle in Hlater.
  destruct (memo (run evs' h')) as [pr|] eqn:Hpr; [|discriminate].
  simpl in Hlater. injection Hlater as Hout.
  simpl. apply (settle_settled _ pr); [done|]. by rewrite Hout.
Qed.

End AsyncStateFacts.

Section AsyncStateWitnesses.
Import UseAsyncState.

(** The default is [1] and the initializer would turn it into [42]; the
    component re-renders once, unmounts, the setter is called late, and
    only then the initializer is done. *)
Lemma unmount_before_resolve_discards_witness :
  let cb : nat → result nat unit := λ n, Resolve (n + 41)%nat in
  let h0 := mount (Props (Value 1%nat) (Some cb)) in
  let evs1 := [Render (Props (Value 7%nat) None)] in
  let evs2 := [SetState 9%nat] in
  let at_unmount := run evs1 h0 in
  let final := run (evs1 ++ Unmount :: evs2 ++ [Settle]) h0 in
  handle at_unmount = Some Pending
  ∧ state final = state at_unmount
  ∧ handle final = Some (Fulfilled None)
  ∧ state final = 1%nat.
Proof.
  intros cb h0 evs1 evs2 at_unmount final.
  destruct (unmount_before_resolve_discards (Value 1%nat) cb 42%nat evs1 evs2
              eq_refl eq_refl eq_refl) as (Hpending & Hstate & Hnull & Hdefault).
  exact (conj Hpending (conj Hstate (conj Hnull (Hdefault eq_refl)))).
Defined.

(** The default is [1], the initializer fails with ["offline"]; the setter
    is called before and after the failure. *)
Lemma rejection_reaches_handle_witness :
  let cb : nat → result nat string := λ _, Reject "offline" in
  let h := run [SetState 5%nat] (mount (Props (Value 1%nat) (Some cb))) in
  let h' := step h Settle in
  let evs' := [SetState 6%nat; Settle; Unmount] in
  handle h = Some Pending
  ∧ handle h' = Some (Rejected "offline")
  ∧ state h' = state h
  ∧ handle (run evs' h') = Some (Rejected "offline")
  ∧ step (run evs' h') Settle = run evs' h'.
Proof.
  intros cb.
  exact (rejection_reaches_handle (Value 1%nat) cb "offline" [SetState 5%nat]
           [SetState 6%nat; Settle; Unmount] eq_refl eq_refl).
Defined.

End AsyncStateWitnesses.

(** ** [useVuex] *)

Section VuexFacts.
Import UseVuex.
Context {St V E : Type}.
Variable changed : V → V → bool.
Implicit Types (h : hook St V E) (a : args St V) (ev : event St V)
  (evs : list (event St V)) (u : unsubscribe_handle E).

Lemma vuex_run_cons ev evs h : run changed (ev :: evs) h = run changed evs (step changed h ev).
Proof. reflexivity. Qed.

(** The selector of the closure form is the selector itself. *)
Lemma selector_of_closure_form a : selector_of (closure_form a) = selector_of a.
Proof. by destruct a. Qed.

Lemma mount_closure_form a (at_render at_effect : St) u :
  mount (closure_form a) at_render at_effect u = mount a at_render at_effect u.
Proof. by destruct a. Qed.

(** After the mount the arguments of a render reach no cell. *)
Lemma step_closure_form h ev :
  step changed h (closure_form_event ev) = step changed h ev.
Proof. by destruct ev. Qed.

Lemma run_closure_form evs h :
  run changed (closure_form_event <$> evs) h = run changed evs h.
Proof.
  revert h. induction evs as [|ev evs IH]; intros h; [done|].
  rewrite fmap_cons, !vuex_run_cons, step_closure_form. apply IH.
Qed.

Lemma outputs_closure_form evs h :
  outputs changed (closure_form_event <$> evs) h = outputs changed evs h.
Proof.
  revert h. induction evs as [|ev evs IH]; intros h; [done|].
  rewrite fmap_cons. simpl. rewrite step_closure_form, IH.
  by destruct ev.
Qed.

(** The handle captured by the cleanup is the one [watch] returned. *)
Lemma step_unsubscribe h ev : unsubscribe (step changed h ev) = unsubscribe h.
Proof.
  destruct ev as [a|st|]; simpl.
  - by destruct (mounted h).
  - unfold notify. destruct (watcher h); [|done].
    destruct (changed _ _); [|done]. simpl.
    unfold setState. by destruct (mounted h).
  - by destruct (mounted h).
Qed.

Lemma run_unsubscribe evs h : unsubscribe (run changed evs h) = unsubscribe h.
Proof.
  revert h. induction evs as [|ev evs IH]; intros h; [done|].
  by rewrite vuex_run_cons, IH, step_unsubscribe.
Qed.

(** C8.  [useVuex(t, f)] and [useVuex(() => f(t))] are the same hook: the
    first render returns [f(t)] evaluated on the store in both, and for
    every sequence of renders, store mutations and unmount that follows,
    written with either call shape, the two instances hold the same cells
    (state, registered watcher, journal of watch and unsubscribe calls) and
    their renders return the same values. *)
Theorem call_shapes_equivalent {T : Type} (t : T) (f : T → St → V)
    (at_render at_effect : St) u evs :
  let two := mount (TargetSelector t f) at_render at_effect u in
  let one := mount (Selector (λ st, f t st)) at_render at_effect u in
  returned two = f t at_render
  ∧ returned one = f t at_render
  ∧ run changed evs two = run changed (closure_form_event <$> evs) one
  ∧ outputs changed evs two = outputs changed (closure_form_event <$> evs) one
  ∧ journal (run changed evs two) = journal (run changed (closure_form_event <$> evs) one).
Proof.
  intros two one.
  assert (Hmount : two = one) by reflexivity.
  split; [reflexivity|]. split; [reflexivity|].
  rewrite Hmount, run_closure_form, outputs_closure_form. done.
Qed.

(** C4, as the code has it.  The cleanup is the bare call [unsubscribe()]
    of whatever [watch] returned at the mount: it completes as that call
    does.  It returns normally for the store's working unsubscribe
    function, raises a [TypeError] when the handle is [undefined], and lets
    the exception of a throwing handle through. *)
Theorem cleanup_completes_as_handle a (at_render at_effect : St) u evs :
  let h := run changed evs (mount a at_render at_effect u) in
  cleanup h = call u
  ∧ cleanup h = match u with
                | NotCallable => Abrupt TypeError
                | Unwatch => Normal
                | Throwing e => Abrupt (Thrown e)
                end
  ∧ (cleanup h = Normal ↔ u = Unwatch).
Proof.
  intros h.
  assert (Hc : cleanup h = call u).
  { unfold cleanup. subst h. by rewrite run_unsubscribe. }
  split; [exact Hc|]. split; [by rewrite Hc|].
  rewrite Hc. destruct u; simpl; split; intros; done.
Qed.

(** The unmount enters the one call and its completion in the journal. *)
Lemma unmount_journal h :
  mounted h = true →
  journal (step changed h Unmount) = journal h ++ [Unsubscribed (call (unsubscribe h))].
Proof. intros Hm. simpl. by rewrite Hm. Qed.

End VuexFacts.

Section VuexExamples.
Import UseVuex.

(** C4, refuted as stated.  With [undefined] for a handle the cleanup ends
    in a [TypeError]; with a handle that throws, in that exception. *)
Lemma cleanup_throws_on_broken_handle :
  let sel : args nat nat := Selector (λ st, st) in
  cleanup (mount sel 0%nat 0%nat (NotCallable : unsubscribe_handle string))
    = Abrupt TypeError
  ∧ cleanup (mount sel 0%nat 0%nat (Throwing "store is gone"))
    = Abrupt (Thrown "store is gone")
  ∧ ¬ (∀ u : unsubscribe_handle string, cleanup (mount sel 0%nat 0%nat u) = Normal).
Proof.
  cbv zeta. split; [reflexivity|]. split; [reflexivity|].
  intros Hall. specialize (Hall NotCallable). discriminate Hall.
Qed.

(** A mounted instance follows the store; its renders return what the
    watcher delivered. *)
Example vuex_follows_store :
  let neq (x y : nat) := negb (x =? y)%nat in
  let h := mount (E := unit) (TargetSelector 10%nat (λ t st, (t + st)%nat)) 1%nat 1%nat Unwatch in
  let evs := [Mutation 2%nat; Render (Selector (λ _, 0%nat)); Unmount; Mutation 3%nat] in
  outputs neq evs h = [12%nat]
  ∧ journal (run neq evs h) = [Watched; Unsubscribed Normal]
  ∧ state (run neq evs h) = 12%nat.
Proof. split; [reflexivity|]. split; reflexivity. Qed.

End VuexExamples.

(** ** [RecordingHistory.tsx] *)

Section RecordingHistoryFacts.
Import JS RecordingHistory.

Lemma falsy_false (x : option number) :
  falsy x = false ↔ ∃ z, x = Some (Num z) ∧ z ≠ 0%Z.
Proof.
  split.
  - destruct x as [[|z]|]; simpl; try discriminate.
    intros Hz. exists z. split; [done|].
    apply negb_false_iff, negb_true_iff in Hz. by apply Z.eqb_neq.
  - intros (z & -> & Hz). simpl. apply negb_false_iff, negb_true_iff.
    by apply Z.eqb_neq.
Qed.

(** C9.  When [ExportModal] renders the modal, both byte counts of the
    upload info are numbers other than zero (and other than [NaN]), and the
    fraction handed to the progress bar divides the first by the second:
    its divisor is not zero. *)
Theorem ExportModal_divisor_nonzero (c : controller) (percent : quotient) (ms : Z) :
  ExportModal c = ProgressModal percent ms →
  ∃ uploaded total : Z,
    uploadedBytes (uploadInfo c) = Some (Num uploaded)
    ∧ totalBytes (uploadInfo c) = Some (Num total)
    ∧ uploaded ≠ 0%Z
    ∧ total ≠ 0%Z
    ∧ percent = {| dividend := Some (Num uploaded); divisor := Some (Num total) |}.
Proof.
  unfold ExportModal.
  destruct (falsy (uploadedBytes (uploadInfo c))) eqn:Hu; simpl; [discriminate|].
  destruct (falsy (totalBytes (uploadInfo c))) eqn:Ht; simpl; [discriminate|].
  apply falsy_false in Hu as (u & Hu & Hu0).
  apply falsy_false in Ht as (t & Ht & Ht0).
  intros [= <- _]. exists u, t. rewrite Hu, Ht. done.
Qed.

(** Conversely a missing, zero or [NaN] byte count hides the modal. *)
Lemma ExportModal_hidden (c : controller) :
  ExportModal c = Fragment
  ↔ falsy (uploadedBytes (uploadInfo c)) = true ∨ falsy (totalBytes (uploadInfo c)) = true.
Proof.
  unfold ExportModal.
  destruct (falsy (uploadedBytes (uploadInfo c))), (falsy (totalBytes (uploadInfo c)));
    simpl; split; intros H; try done; auto.
  by destruct H.
Qed.

(** 512 of 2048 bytes are uploaded. *)
Lemma ExportModal_divisor_nonzero_witness :
  let c := {| uploadInfo := {| uploading := true;
                               uploadedBytes := Some (Num 512);
                               totalBytes := Some (Num 2048);
                               error := None |};
              linkedPlatforms := ["youtube"];
              slid := VStr "42";
              showSLIDModal := false;
              notifications := [];
              requests := [] |} in
  ∃ uploaded total : Z,
    uploadedBytes (uploadInfo c) = Some (Num uploaded)
    ∧ totalBytes (uploadInfo c) = Some (Num total)
    ∧ uploaded ≠ 0%Z
    ∧ total ≠ 0%Z
    ∧ {| dividend := Some (Num 512); divisor := Some (Num 2048) |}
      = {| dividend := Some (Num uploaded); divisor := Some (Num total) |}.
Proof.
  intros c.
  exact (ExportModal_divisor_nonzero c
           {| dividend := Some (Num 512); divisor := Some (Num 2048) |} (1000 * 60) eq_refl).
Defined.

(** An upload that has sent nothing yet shows no modal. *)
Example ExportModal_before_first_byte :
  ExportModal {| uploadInfo := {| uploading := true;
                                  uploadedBytes := Some (Num 0);
                                  totalBytes := Some (Num 2048);
                                  error := None |};
                 linkedPlatforms := [];
                 slid := VUndefined;
                 showSLIDModal := false;
                 notifications := [];
                 requests := [] |}
  = Fragment.
Proof. reflexivity. Qed.

Section Controller.
Variable translate : string → string.

(** C10.  While an upload is in progress [handleSelect] is [postError] of
    the translated message and nothing more: one warning with a life time
    of 5000 is added to the notifications; no upload is requested, the
    modal flag and the upload info are what they were. *)
Theorem handleSelect_while_uploading (filename platform : string) (c : controller) :
  uploading (uploadInfo c) = true →
  let c' := handleSelect translate filename platform c in
  c' = postError (translate "Upload already in progress") c
  ∧ notifications c'
    = notifications c ++ [ {| message := translate "Upload already in progress";
                              type := WARNING;
                              lifeTime := 5000 |} ]
  ∧ requests c' = requests c
  ∧ showSLIDModal c' = showSLIDModal c
  ∧ uploadInfo c' = uploadInfo c.
Proof.
  intros Hup c'. subst c'. unfold handleSelect. rewrite Hup.
  split; [reflexivity|]. split; [reflexivity|]. split; [reflexivity|].
  split; reflexivity.
Qed.

(** With no upload in progress the three other branches are taken. *)
Lemma handleSelect_idle (filename platform : string) (c : controller) :
  uploading (uploadInfo c) = false →
  handleSelect translate filename platform c
  = if String.eqb platform "youtube" then uploadToYoutube filename c
    else if hasSLID c then uploadToStorage filename platform c
    else open_SLID_modal c.
Proof. intros Hup. unfold handleSelect. by rewrite Hup. Qed.

End Controller.

End RecordingHistoryFacts.

Section RecordingHistoryWitnesses.
Import JS RecordingHistory.

(** An upload is running, the user has no Streamlabs ID and picks a
    platform other than YouTube: without the guard the modal would open. *)
Lemma handleSelect_while_uploading_witness :
  let c := {| uploadInfo := {| uploading := true;
                               uploadedBytes := Some (Num 512);
                               totalBytes := Some (Num 2048);
                               error := None |};
              linkedPlatforms := [];
              slid := VUndefined;
              showSLIDModal := false;
              notifications := [];
              requests := [] |} in
  let c' := handleSelect id "clip.mp4" "crossclip" c in
  c' = postError "Upload already in progress" c
  ∧ notifications c'
    = [ {| message := "Upload already in progress"; type := WARNING; lifeTime := 5000 |} ]
  ∧ requests c' = []
  ∧ showSLIDModal c' = false
  ∧ uploadInfo c' = uploadInfo c.
Proof.
  intros c.
  exact (handleSelect_while_uploading id "clip.mp4" "crossclip" c eq_refl).
Defined.

(** The same click with no upload running opens the modal. *)
Example handleSelect_idle_opens_modal :
  showSLIDModal
    (handleSelect id "clip.mp4" "crossclip"
       {| uploadInfo := {| uploading := false; uploadedBytes := None;
                           totalBytes := None; error := None |};
          linkedPlatforms := [];
          slid := VUndefined;
          showSLIDModal := false;
          notifications := [];
          requests := [] |})
  = true.
Proof. reflexivity. Qed.

End RecordingHistoryWitnesses.

(* ===================================================================== *)
(** * Part III: further properties of the same code *)
(* ===================================================================== *)

(** ** [useStateHelper]: laws of the returned operations *)

Section StateHelperLaws.
Import JS UseStateHelper.

Lemma spread2_assoc (m q p : record) : spread2 (spread2 m q) p = spread2 m (spread2 q p).
Proof. unfold spread2. by rewrite (assoc_L (∪)). Qed.

Lemma hook_eq (h1 h2 : hook) :
  s h1 = s h2 → raw h1 = raw h2 → stateRef h1 = stateRef h2 → h1 = h2.
Proof. destruct h1, h2. simpl. by intros -> -> ->. Qed.

(** Whatever the component has done since the mount, [stateRef.current]
    is the committed state, and it is what the next render returns as
    [s]. *)
Theorem mirror_is_committed_state (i : initializer) (acts : list action) :
  let h := run acts (mount i) in
  stateRef h = raw h ∧ s (render h) = stateRef h.
Proof.
  intros h. assert (Hsync : stateRef h = raw h) by apply reachable_synced.
  split; [exact Hsync|]. simpl. by rewrite Hsync.
Qed.

(** Two patches in a row are one patch: [updateState(q)] followed by
    [updateState(p)] leaves the hook as [updateState({...q, ...p})] does.
    In particular a patch applied twice is the patch applied once. *)
Theorem updateState_fuse (q p : record) (h : hook) :
  updateState p (updateState q h) = updateState (spread2 q p) h
  ∧ updateState p (updateState p h) = updateState p h.
Proof.
  assert (Hfuse : ∀ a b, updateState b (updateState a h) = updateState (spread2 a b) h).
  { intros a b. apply hook_eq; simpl; try done; apply spread2_assoc. }
  split; [apply Hfuse|].
  rewrite Hfuse. f_equal. unfold spread2. by rewrite (idemp_L (∪)).
Qed.

Lemma setItem_cells (d k : string) (v : value) (h : hook) :
  setItem d k v h
  = let m := <[d := VObj (<[k := v]> (spread (get (stateRef h) d)))]> (stateRef h) in
    {| s := s h; raw := m; stateRef := m |}.
Proof. reflexivity. Qed.

Lemma get_insert_eq (m : record) (d : string) (x : value) : get (<[d := x]> m) d = x.
Proof. unfold get. by rewrite lookup_insert_eq. Qed.

Lemma get_insert_ne (m : record) (d d' : string) (x : value) :
  d ≠ d' → get (<[d := x]> m) d' = get m d'.
Proof. intros Hd. unfold get. by rewrite lookup_insert_ne. Qed.

(** Writing the same entry twice keeps the last value only. *)
Theorem setItem_last_write_wins (d k : string) (v1 v2 : value) (h : hook) :
  setItem d k v2 (setItem d k v1 h) = setItem d k v2 h.
Proof.
  rewrite !setItem_cells. cbv zeta. simpl.
  rewrite get_insert_eq. simpl.
  by rewrite !insert_insert_eq.
Qed.

(** Writes to different entries, of one nested record or of two, can be
    made in either order. *)
Theorem setItem_commute (d1 k1 d2 k2 : string) (v1 v2 : value) (h : hook) :
  (d1, k1) ≠ (d2, k2) →
  setItem d1 k1 v1 (setItem d2 k2 v2 h) = setItem d2 k2 v2 (setItem d1 k1 v1 h).
Proof.
  intros Hne. rewrite !setItem_cells. cbv zeta. simpl.
  destruct (decide (d1 = d2)) as [->|Hd].
  - assert (Hk : k1 ≠ k2) by congruence.
    rewrite !get_insert_eq. simpl. rewrite !insert_insert_eq.
    by rewrite (insert_insert_ne _ k1 k2).
  - rewrite (get_insert_ne _ d2 d1), (get_insert_ne _ d1 d2) by done.
    by rewrite (insert_insert_ne _ d1 d2).
Qed.

Lemma setItem_commute_witness :
  let h := mount (Value {["sizes" := VObj {["w" := VNum (Num 1)]}]}) in
  setItem "sizes" "w" (VNum (Num 7)) (setItem "sizes" "h" (VNum (Num 9)) h)
  = setItem "sizes" "h" (VNum (Num 9)) (setItem "sizes" "w" (VNum (Num 7)) h).
Proof.
  intros h.
  refine (setItem_commute "sizes" "w" "sizes" "h" (VNum (Num 7)) (VNum (Num 9)) h _).
  discriminate.
Defined.

(** [setItem] never fails.  On a field that is missing or holds
    [undefined], [null], a boolean or a number, the old value is dropped
    and the field becomes the record with the one entry. *)
Theorem setItem_replaces_primitive (d k : string) (v : value) (h : hook) :
  primitive (get (stateRef h) d) = true →
  raw (setItem d k v h) = <[d := VObj {[k := v]}]> (stateRef h)
  ∧ stateRef (setItem d k v h) = raw (setItem d k v h).
Proof.
  intros Hp. split; [|reflexivity].
  rewrite setItem_cells. cbv zeta. simpl.
  destruct (get (stateRef h) d); try discriminate; simpl; by rewrite insert_empty.
Qed.

Lemma setItem_replaces_primitive_witness :
  let h := mount (Value {["volume" := VNum (Num 80)]}) in
  raw (setItem "volume" "left" (VNum (Num 3)) h)
  = <["volume" := VObj {["left" := VNum (Num 3)]}]> (stateRef h)
  ∧ stateRef (setItem "volume" "left" (VNum (Num 3)) h)
    = raw (setItem "volume" "left" (VNum (Num 3)) h).
Proof.
  intros h.
  exact (setItem_replaces_primitive "volume" "left" (VNum (Num 3)) h eq_refl).
Defined.

(** What an input bound with [bind] shows after its own change: the
    [onChange] of a binding followed by a render gives a binding whose
    [value] is the value passed, under the same [name]. *)
Theorem onChange_then_render_shows_value (x : string) (v : value) (h : hook) :
  let h' := render (onChange (bind h x) v h) in
  value_of (bind h' x) = v ∧ name (bind h' x) = x.
Proof.
  intros h'. split; [|reflexivity].
  subst h'. simpl. unfold spread_set. apply get_insert_eq.
Qed.

(** A binding shows the state of the render that made it.  After
    [updateState] sets field [x], [bind(x).value] is still the value of the
    last render; it is the new value once the component has rendered
    again. *)
Theorem bind_value_follows_render (i : initializer) (acts : list action)
    (patch : record) (x : string) (v : value) :
  patch !! x = Some v →
  let h := run acts (mount i) in
  value_of (bind (updateState patch h) x) = get (s h) x
  ∧ value_of (bind (render (updateState patch h)) x) = v.
Proof.
  intros Hx h. split; [reflexivity|].
  simpl. unfold get. by rewrite spread2_lookup, Hx.
Qed.

Lemma bind_value_follows_render_witness :
  let h := run [] (mount (Value {["x" := VNum (Num 0)]})) in
  let patch : record := {["x" := VNum (Num 5)]} in
  value_of (bind (updateState patch h) "x") = get (s h) "x"
  ∧ value_of (bind (render (updateState patch h)) "x") = VNum (Num 5).
Proof.
  intros h patch.
  exact (bind_value_follows_render (Value {["x" := VNum (Num 0)]}) [] patch "x"
           (VNum (Num 5)) eq_refl).
Defined.

End StateHelperLaws.

(** ** [useAsyncState]: the other paths *)

Section AsyncStateMore.
Import UseAsyncState.
Context {T E : Type}.
Implicit Types (h : hook T E) (p : props T E) (ev : event T E) (evs : list (event T E)).

Lemma setState_mounted (v : T) h : mounted (setState v h) = mounted h.
Proof. unfold setState. by destruct (mounted h) eqn:Hm. Qed.

Lemma settle_mounted h : mounted (settle h) = mounted h.
Proof.
  unfold settle. destruct (memo h) as [pr|]; [|done].
  destruct (outcome pr); [|done..].
  destruct (source pr); [|done].
  destruct (default false _); [done|]. simpl. apply setState_mounted.
Qed.

Lemma step_stays_mounted h ev :
  is_unmount ev = false → mounted (step h ev) = mounted h.
Proof.
  destruct ev as [p|v| |]; simpl; intros Hev; try discriminate.
  - by destruct (mounted h) eqn:Hm.
  - apply setState_mounted.
  - apply settle_mounted.
Qed.

Lemma run_stays_mounted evs h :
  stays_mounted evs = true → mounted (run evs h) = mounted h.
Proof.
  revert h. induction evs as [|ev evs IH]; intros h Hevs; [done|].
  unfold stays_mounted in Hevs. simpl in Hevs.
  apply andb_true_iff in Hevs as [Hev Hevs]. apply negb_true_iff in Hev.
  by rewrite run_cons, IH, step_stays_mounted.
Qed.

(** The initializer is done while the component is mounted: its result
    becomes the state, also over a value the setter put there in the
    meantime, and the returned promise is fulfilled with it. *)
Theorem resolve_while_mounted_overwrites (d : initializer T) (cb : T → result T E)
    (r : T) evs :
  cb (initial d) = Resolve r →
  unsettled evs = true →
  stays_mounted evs = true →
  let h := run (evs ++ [Settle]) (mount (Props d (Some cb))) in
  state h = r ∧ handle h = Some (Fulfilled (Some r)).
Proof.
  intros Hcb Hevs Hm h. subst h. rewrite run_app.
  set (h := run evs (mount (Props d (Some cb)))).
  change (run [Settle] h) with (settle h).
  apply (settle_alive h {| source := cb (initial d); guard := 0; outcome := Pending |} r).
  - apply run_consistent, mount_consistent.
  - subst h. by rewrite run_stays_mounted.
  - subst h. by rewrite run_unsettled_memo.
  - reflexivity.
  - exact Hcb.
Qed.

Lemma step_later_flags h ev :
  (cleanup h = Some 0%nat ∨ cleanup h = None)
  ∧ (∀ i, (0 < i)%nat → isDestroyed h !! i ≠ Some true) →
  (cleanup (step h ev) = Some 0%nat ∨ cleanup (step h ev) = None)
  ∧ (∀ i, (0 < i)%nat → isDestroyed (step h ev) !! i ≠ Some true).
Proof.
  intros [Hc Hf].
  assert (Hset : ∀ v, cleanup (setState v h) = cleanup h
                      ∧ isDestroyed (setState v h) = isDestroyed h).
  { intros v. unfold setState. by destruct (mounted h). }
  destruct ev as [p|v| |]; simpl.
  - destruct (mounted h); [|done]. split; [done|]. simpl.
    intros i Hi [Hl|[_ Hr]]%lookup_app_Some; [by apply (Hf i)|].
    destruct (i - length (isDestroyed h))%nat as [|[|?]]; discriminate.
  - destruct (Hset v) as [-> ->]. done.
  - unfold settle. destruct (memo h) as [pr|]; [|done].
    destruct (outcome pr); [|done..].
    destruct (source pr) as [v|e]; [|done].
    destruct (default false _); [done|]. simpl.
    destruct (Hset v) as [-> ->]. done.
  - destruct (mounted h); [|done]. split; [by right|]. simpl.
    intros i Hi. destruct Hc as [-> | ->]; [|by apply Hf].
    rewrite list_lookup_insert_ne by lia. by apply Hf.
Qed.

(** Only the variable of the first render is ever set: the [isDestroyed]
    that a later render declares stays [false], whatever happens. *)
Theorem later_flags_never_set p evs (i : nat) :
  (0 < i)%nat → isDestroyed (run evs (mount p)) !! i ≠ Some true.
Proof.
  intros Hi.
  assert (Hall : ∀ h,
    (cleanup h = Some 0%nat ∨ cleanup h = None)
    ∧ (∀ i, (0 < i)%nat → isDestroyed h !! i ≠ Some true) →
    (∀ i, (0 < i)%nat → isDestroyed (run evs h) !! i ≠ Some true)).
  { induction evs as [|ev evs IH]; intros h Hh; [by apply Hh|].
    rewrite run_cons. by apply IH, step_later_flags. }
  apply Hall; [|exact Hi].
  split; [by left|]. intros [|j] Hj; [lia|]. simpl. done.
Qed.

(** An unmounted instance whose promise was not fulfilled with a value
    stays as it is in these respects. *)
Lemma step_gone h ev :
  consistent h → mounted h = false →
  (∀ pr v, memo h = Some pr → outcome pr ≠ Fulfilled (Some v)) →
  consistent (step h ev) ∧ mounted (step h ev) = false
  ∧ state (step h ev) = state h
  ∧ (∀ pr v, memo (step h ev) = Some pr → outcome pr ≠ Fulfilled (Some v)).
Proof.
  intros Hc Hm Hout.
  assert (Hsame : step h ev = h →
    consistent (step h ev) ∧ mounted (step h ev) = false
    ∧ state (step h ev) = state h
    ∧ (∀ pr v, memo (step h ev) = Some pr → outcome pr ≠ Fulfilled (Some v))).
  { intros ->. auto. }
  destruct (is_settle ev) eqn:Hev; [|by apply Hsame, step_unmounted].
  - destruct ev; try discriminate.
    destruct (memo h) as [pr|] eqn:Hmemo;
      [|apply Hsame; simpl; unfold settle; by rewrite Hmemo].
    destruct (outcome pr) eqn:Hpr;
      [|apply Hsame, (settle_settled h pr); [done|by rewrite Hpr]..].
    simpl.
    destruct (source pr) as [v|e] eqn:Hsrc.
    + rewrite (settle_destroyed h pr v) by done.
      split; [apply set_outcome_consistent; [by apply Hc|done]|].
      split; [done|]. split; [done|]. simpl. by intros ? ? [= <-].
    + assert (Hs : settle h = set_outcome (Rejected e) pr h).
      { unfold settle. by rewrite Hmemo, Hpr, Hsrc. }
      rewrite Hs.
      split; [apply set_outcome_consistent; [by apply Hc|done]|].
      split; [done|]. split; [done|]. simpl. by intros ? ? [= <-].
Qed.

Lemma run_gone evs h :
  consistent h → mounted h = false →
  (∀ pr v, memo h = Some pr → outcome pr ≠ Fulfilled (Some v)) →
  state (run evs h) = state h
  ∧ (∀ pr v, memo (run evs h) = Some pr → outcome pr ≠ Fulfilled (Some v)).
Proof.
  revert h. induction evs as [|ev evs IH]; intros h Hc Hm Hout; [done|].
  destruct (step_gone h ev Hc Hm Hout) as (Hc' & Hm' & Hs' & Hout').
  rewrite run_cons. destruct (IH (step h ev) Hc' Hm' Hout') as [IHs IHo].
  split; [by rewrite IHs|exact IHo].
Qed.

(** Once the component is unmounted its state is final.  If the promise
    had not settled by then, no later event changes the state: not the
    setter, not the promise settling either way; and the returned promise
    is never fulfilled with a value. *)
Theorem state_final_after_unmount p evs1 evs2 :
  unsettled evs1 = true →
  let at_unmount := run evs1 (mount p) in
  let final := run (evs1 ++ Unmount :: evs2) (mount p) in
  state final = state at_unmount
  ∧ ∀ v, handle final ≠ Some (Fulfilled (Some v)).
Proof.
  intros Hevs1 at_unmount final.
  set (gone := step at_unmount Unmount).
  assert (Hfinal : final = run evs2 gone).
  { subst final gone at_unmount. by rewrite run_app, run_cons. }
  destruct (run_gone evs2 gone) as [Hs Ho].
  - apply step_consistent, run_consistent, mount_consistent.
  - apply step_Unmount_mounted.
  - intros pr v. subst gone at_unmount.
    rewrite step_Unmount_memo, run_unsettled_memo by done. simpl.
    destruct (asyncCb p); [|discriminate]. by intros [= <-].
  - rewrite Hfinal. split; [by rewrite Hs; apply step_Unmount_state|].
    intros v. unfold handle.
    destruct (memo (run evs2 gone)) as [pr|] eqn:Hpr; [|discriminate].
    simpl. intros [= Hv]. by apply (Ho pr v).
Qed.

End AsyncStateMore.

Section AsyncStateMoreWitnesses.
Import UseAsyncState.

(** The setter puts [5], then the initializer of the default [1] is done. *)
Lemma resolve_while_mounted_overwrites_witness :
  let cb : nat → result nat unit := λ n, Resolve (n + 41)%nat in
  let h := run ([SetState 5%nat] ++ [Settle]) (mount (Props (Value 1%nat) (Some cb))) in
  state h = 42%nat ∧ handle h = Some (Fulfilled (Some 42%nat)).
Proof.
  intros cb.
  exact (resolve_while_mounted_overwrites (Value 1%nat) cb 42%nat [SetState 5%nat]
           eq_refl eq_refl eq_refl).
Defined.

(** Two renders, then the unmount: the variable of the second render. *)
Lemma later_flags_never_set_witness :
  isDestroyed
    (run [Render (Props (Value 2%nat) None); Unmount; Settle]
       (mount (T := nat) (E := unit) (Props (Value 1%nat) None))) !! 1%nat
  ≠ Some true.
Proof.
  refine (later_flags_never_set (Props (Value 1%nat) None)
            [Render (Props (Value 2%nat) None); Unmount; Settle] 1 _).
  lia.
Defined.

(** The setter is called before and after the unmount, and the
    initializer is done last. *)
Lemma state_final_after_unmount_witness :
  let cb : nat → result nat unit := λ n, Resolve (n + 41)%nat in
  let p := Props (Value 1%nat) (Some cb) in
  let evs1 := [SetState 5%nat] in
  let evs2 := [SetState 6%nat; Settle; SetState 7%nat] in
  state (run (evs1 ++ Unmount :: evs2) (mount p)) = state (run evs1 (mount p))
  ∧ ∀ v, handle (run (evs1 ++ Unmount :: evs2) (mount p)) ≠ Some (Fulfilled (Some v)).
Proof.
  intros cb p evs1 evs2.
  exact (state_final_after_unmount p evs1 evs2 eq_refl).
Defined.

End AsyncStateMoreWitnesses.

(** ** [useVuex]: the subscription over the life of the component *)

Section VuexMore.
Import UseVuex.
Context {St V E : Type}.
Variable changed : V → V → bool.
Implicit Types (h : hook St V E) (a : args St V) (ev : event St V)
  (evs : list (event St V)) (u : unsubscribe_handle E).

Lemma stays_mounted_cons ev evs :
  stays_mounted (ev :: evs) = true → is_unmount ev = false ∧ stays_mounted evs = true.
Proof.
  unfold stays_mounted. simpl. intros [H1 H2]%andb_true_iff.
  split; [by apply negb_true_iff|exact H2].
Qed.

Lemma notify_keeps st h :
  mounted (notify changed st h) = mounted h
  ∧ journal (notify changed st h) = journal h
  ∧ watcher (notify changed st h) = watcher h
  ∧ unsubscribe (notify changed st h) = unsubscribe h.
Proof.
  unfold notify. destruct (watcher h) eqn:Hw; [|by rewrite Hw].
  destruct (changed _ _); [|by rewrite Hw]. simpl.
  unfold setState. destruct (mounted h) eqn:Hm; simpl; by rewrite ?Hm, ?Hw.
Qed.

(** The journal of an instance with handle [u]. *)
Lemma step_journal u h ev :
  unsubscribe h = u
  ∧ journal h = (if mounted h then [Watched] else [Watched; Unsubscribed (call u)]) →
  unsubscribe (step changed h ev) = u
  ∧ journal (step changed h ev)
    = (if mounted (step changed h ev) then [Watched] else [Watched; Unsubscribed (call u)]).
Proof.
  intros [Hu Hj]. destruct ev as [a|st|]; simpl.
  - assert (Hsame : (if mounted h then rerender a h else h) = h)
      by (by destruct (mounted h)).
    by rewrite Hsame.
  - destruct (notify_keeps st h) as (-> & -> & _ & ->). done.
  - destruct (mounted h) eqn:Hm; simpl; [|by rewrite Hm].
    unfold cleanup. by rewrite Hj, Hu.
Qed.

Lemma step_mounted h ev :
  mounted (step changed h ev) = mounted h && negb (is_unmount ev).
Proof.
  destruct ev as [a|st|]; simpl.
  - destruct (mounted h) eqn:Hm; simpl; by rewrite ?Hm.
  - destruct (notify_keeps st h) as (-> & _). by rewrite andb_true_r.
  - destruct (mounted h) eqn:Hm; simpl; by rewrite ?Hm.
Qed.

Lemma run_mounted evs h :
  mounted (run changed evs h) = mounted h && stays_mounted evs.
Proof.
  revert h. induction evs as [|ev evs IH]; intros h.
  - simpl. by rewrite andb_true_r.
  - rewrite vuex_run_cons, IH, step_mounted. unfold stays_mounted. simpl.
    by rewrite andb_assoc.
Qed.

Lemma run_journal u evs h :
  unsubscribe h = u
  ∧ journal h = (if mounted h then [Watched] else [Watched; Unsubscribed (call u)]) →
  journal (run changed evs h)
  = (if mounted (run changed evs h) then [Watched] else [Watched; Unsubscribed (call u)]).
Proof.
  revert h. induction evs as [|ev evs IH]; intros h Hh; [by apply Hh|].
  rewrite vuex_run_cons. by apply IH, step_journal.
Qed.

(** One mount, one call of [watch]; one unmount, one call of the handle
    that [watch] returned, and none before.  Renders and store mutations
    make no call, and neither does a second unmount. *)
Theorem subscribes_once_unsubscribes_once a (at_render at_effect : St) u evs :
  let h := run changed evs (mount a at_render at_effect u) in
  mounted h = stays_mounted evs
  ∧ journal h = if stays_mounted evs then [Watched] else [Watched; Unsubscribed (call u)].
Proof.
  intros h.
  assert (Hm : mounted h = stays_mounted evs) by (subst h; by rewrite run_mounted).
  split; [exact Hm|]. rewrite <- Hm.
  apply (run_journal u). done.
Qed.

Lemma step_mounted_watcher h ev :
  is_unmount ev = false →
  mounted (step changed h ev) = mounted h ∧ watcher (step changed h ev) = watcher h.
Proof.
  destruct ev as [a|st|]; simpl; intros Hev; try discriminate.
  - by destruct (mounted h) eqn:Hm.
  - destruct (notify_keeps st h) as (-> & _ & -> & _). done.
Qed.

Lemma run_mounted_watcher evs h :
  stays_mounted evs = true →
  mounted (run changed evs h) = mounted h ∧ watcher (run changed evs h) = watcher h.
Proof.
  revert h. induction evs as [|ev evs IH]; intros h Hevs; [done|].
  apply stays_mounted_cons in Hevs as [Hev Hevs].
  rewrite vuex_run_cons.
  destruct (IH (step changed h ev) Hevs) as [-> ->].
  by apply step_mounted_watcher.
Qed.

(** The watcher is the selector of the first render.  A later render may
    pass another selector; the value the store delivers, and the next
    render returns, is still computed by the first one. *)
Theorem watcher_is_first_selector a a' (at_render at_effect st : St) u evs :
  stays_mounted evs = true →
  let h := run changed evs (mount a at_render at_effect u) in
  changed (seen h) (selector_of a st) = true →
  returned (run changed [Render a'; Mutation st; Render a'] h) = selector_of a st.
Proof.
  intros Hevs h Hch.
  destruct (run_mounted_watcher evs (mount a at_render at_effect u) Hevs) as [Hm Hw].
  fold h in Hm, Hw. simpl in Hm, Hw.
  unfold run. simpl. rewrite Hm. unfold rerender.
  unfold notify. rewrite Hw, Hch. simpl.
  unfold setState. rewrite Hm. simpl. done.
Qed.

Lemma step_unwatched h ev :
  mounted h = false → watcher h = None → step changed h ev = h.
Proof.
  intros Hm Hw. destruct ev as [a|st|]; simpl.
  - by rewrite Hm.
  - unfold notify. by rewrite Hw.
  - by rewrite Hm.
Qed.

Lemma step_unwatch_inv h ev :
  unsubscribe h = Unwatch ∧ (mounted h = false → watcher h = None) →
  unsubscribe (step changed h ev) = Unwatch
  ∧ (mounted (step changed h ev) = false → watcher (step changed h ev) = None).
Proof.
  intros [Hu Hw]. destruct ev as [a|st|]; simpl.
  - assert (Hsame : (if mounted h then rerender a h else h) = h)
      by (by destruct (mounted h)).
    by rewrite Hsame.
  - destruct (notify_keeps st h) as (-> & _ & -> & ->). done.
  - destruct (mounted h) eqn:Hm; simpl; [by rewrite Hu|auto].
Qed.

Lemma run_unwatch_inv evs h :
  unsubscribe h = Unwatch ∧ (mounted h = false → watcher h = None) →
  unsubscribe (run changed evs h) = Unwatch
  ∧ (mounted (run changed evs h) = false → watcher (run changed evs h) = None).
Proof.
  revert h. induction evs as [|ev evs IH]; intros h Hh; [done|].
  rewrite vuex_run_cons. by apply IH, step_unwatch_inv.
Qed.

Lemma run_unwatched evs h :
  mounted h = false → watcher h = None → run changed evs h = h.
Proof.
  intros Hm Hw. induction evs as [|ev evs IH]; [done|].
  by rewrite vuex_run_cons, step_unwatched.
Qed.

(** After the unmount of an instance whose handle is the store's
    unsubscribe function, nothing reaches it any more: store mutations,
    renders and further unmounts leave every cell as it was. *)
Theorem unsubscribed_instance_is_frozen a (at_render at_effect : St) evs1 evs2 :
  run changed (evs1 ++ Unmount :: evs2) (mount a at_render at_effect (@Unwatch E))
  = run changed (evs1 ++ [Unmount]) (mount a at_render at_effect (@Unwatch E)).
Proof.
  unfold run. rewrite !foldl_app. simpl.
  fold (run changed evs1 (mount a at_render at_effect (@Unwatch E))).
  set (h := run changed evs1 (mount a at_render at_effect (@Unwatch E))).
  fold (run changed evs2 (if mounted h then unmount h else h)).
  destruct (run_unwatch_inv evs1 (mount a at_render at_effect (@Unwatch E))) as [Hu Hw]; [done|].
  fold h in Hu, Hw.
  apply run_unwatched.
  - by destruct (mounted h) eqn:Hm.
  - destruct (mounted h) eqn:Hm; simpl; [by rewrite Hu|by apply Hw].
Qed.

Lemma step_quiet (sel : St → V) (v0 v1 : V) h ev :
  quiet changed sel v1 [ev] = true →
  state h = v0 ∧ seen h = v1 ∧ (watcher h = Some sel ∨ watcher h = None) →
  state (step changed h ev) = v0 ∧ seen (step changed h ev) = v1
  ∧ (watcher (step changed h ev) = Some sel ∨ watcher (step changed h ev) = None).
Proof.
  intros Hq (Hs & Hseen & Hw). destruct ev as [a|st|]; simpl.
  - assert (Hsame : (if mounted h then rerender a h else h) = h)
      by (by destruct (mounted h)).
    by rewrite Hsame.
  - unfold quiet in Hq. simpl in Hq. rewrite andb_true_r in Hq.
    apply negb_true_iff in Hq.
    unfold notify. destruct Hw as [Hw|Hw]; rewrite Hw; [|auto].
    rewrite Hseen, Hq. auto.
  - destruct (mounted h) eqn:Hm; simpl; [|auto].
    split; [done|]. split; [done|].
    destruct (unsubscribe h); auto.
Qed.

(** The first value is computed during the render, the watcher is
    registered by the effect after it.  A change of the store between the
    two is not delivered: as long as the store then stays at values it
    does not tell apart from the one at registration, the hook keeps
    returning the value of the render. *)
Theorem change_before_effect_is_missed a (at_render at_effect : St) u evs :
  quiet changed (selector_of a) (selector_of a at_effect) evs = true →
  returned (run changed evs (mount a at_render at_effect u)) = selector_of a at_render.
Proof.
  intros Hq.
  assert (Hall : ∀ h,
    state h = selector_of a at_render ∧ seen h = selector_of a at_effect
    ∧ (watcher h = Some (selector_of a) ∨ watcher h = None) →
    state (run changed evs h) = selector_of a at_render).
  { induction evs as [|ev evs IH]; intros h Hh; [by apply Hh|].
    unfold quiet in Hq. simpl in Hq. apply andb_true_iff in Hq as [Hev Hq].
    rewrite vuex_run_cons. apply IH; [exact Hq|].
    apply step_quiet; [|exact Hh].
    unfold quiet. simpl. by rewrite Hev. }
  apply Hall. simpl. auto.
Qed.

End VuexMore.

Section VuexMoreWitnesses.
Import UseVuex.

(** The component first passes a selector that adds 10 and on later
    renders one that is constantly 0; the store goes from 1 to 2. *)
Lemma watcher_is_first_selector_witness :
  let neq (x y : nat) := negb (x =? y)%nat in
  let a : args nat nat := Selector (λ st, (st + 10)%nat) in
  let a' : args nat nat := Selector (λ _, 0%nat) in
  let h := run neq [Render a'] (mount (E := unit) a 1%nat 1%nat Unwatch) in
  returned (run neq [Render a'; Mutation 2%nat; Render a'] h) = 12%nat.
Proof.
  intros neq a a' h.
  exact (watcher_is_first_selector neq a a' 1%nat 1%nat 2%nat Unwatch [Render a']
           eq_refl eq_refl).
Defined.

(** The store is at 1 during the render and at 2 when the watcher is
    registered, and stays there. *)
Lemma change_before_effect_is_missed_witness :
  let neq (x y : nat) := negb (x =? y)%nat in
  let a : args nat nat := Selector (λ st, st) in
  returned (run neq [Mutation 2%nat; Render a]
              (mount (E := unit) a 1%nat 2%nat Unwatch))
  = 1%nat.
Proof.
  intros neq a.
  exact (change_before_effect_is_missed neq a 1%nat 2%nat Unwatch
           [Mutation 2%nat; Render a] eq_refl).
Defined.

End VuexMoreWitnesses.

(** ** [RecordingHistory.tsx]: the options, the click and the error effect *)

Section RecordingHistoryMore.
Import JS RecordingHistory.

Lemma prefix_append (p b : string) : String.prefix p (p +:+ b) = true.
Proof.
  induction p as [|ch p IH]; simpl; [by destruct b|].
  by destruct (Ascii.ascii_dec ch ch).
Qed.

Lemma prefix_split (p str : string) :
  String.prefix p str = true → ∃ b, str = p +:+ b.
Proof.
  revert str. induction p as [|ch p IH]; intros str Hp.
  - by exists str.
  - destruct str as [|ch' str]; simpl in Hp; [discriminate|].
    destruct (Ascii.ascii_dec ch ch') as [<-|]; [|discriminate].
    destruct (IH str Hp) as [b ->]. by exists b.
Qed.

Lemma occurs_unfold (p str : string) :
  occurs p str
  = String.prefix p str || match str with
                           | EmptyString => false
                           | String _ rest => occurs p rest
                           end.
Proof. by destruct str. Qed.

(** [occurs] is the substring test. *)
Lemma occurs_spec (p str : string) :
  occurs p str = true ↔ ∃ a b, str = a +:+ p +:+ b.
Proof.
  split.
  - induction str as [|ch str IH]; rewrite occurs_unfold.
    + rewrite orb_false_r. intros [b ->]%prefix_split. by exists "", b.
    + intros [[b Hb]%prefix_split | Hrest]%orb_true_iff.
      * exists "", b. by rewrite Hb.
      * destruct (IH Hrest) as (a & b & ->). by exists (String ch a), b.
  - intros (a & b & ->). induction a as [|ch a IH].
    + rewrite occurs_unfold.
      change ("" +:+ p +:+ b) with (p +:+ b). by rewrite prefix_append.
    + change (String ch a +:+ p +:+ b) with (String ch (a +:+ p +:+ b)).
      rewrite occurs_unfold, IH. apply orb_true_r.
Qed.


(** Which errors reach the user.  An upload error is posted, as one
    warning, exactly when it is a non-empty string in which [TypeError]
    does not occur; a missing error, the empty string and every message
    that mentions [TypeError] post nothing. *)
Theorem error_surfaced_iff (info : upload_info) (c : controller) :
  (∃ e, error info = Some e ∧ e ≠ ""
        ∧ (¬ ∃ a b, e = a +:+ "TypeError" +:+ b)
        ∧ surface_error info c = postError e c)
  ∨ ((error info = None ∨ error info = Some ""
      ∨ ∃ a b, error info = Some (a +:+ "TypeError" +:+ b))
     ∧ surface_error info c = c).
Proof.
  unfold surface_error. destruct (error info) as [e|]; [|right; auto].
  destruct (String.eqb e "") eqn:He; simpl.
  - apply String.eqb_eq in He as ->. right. auto.
  - apply String.eqb_neq in He.
    destruct (occurs "TypeError" e) eqn:Ho; simpl.
    + right. apply occurs_spec in Ho as (a & b & ->).
      split; [|done]. right. right. by exists a, b.
    + left. exists e. split; [done|]. split; [done|]. split; [|done].
      intros Hab. apply occurs_spec in Hab. congruence.
Qed.



(** What [SLIDModal] shows after a click.  The prompt is up exactly when
    it was up before, or when the click found no upload running, a
    platform other than YouTube and no Streamlabs ID. *)
Theorem SLIDModal_after_handleSelect (translate : string → string)
    (filename platform : string) (c : controller) :
  SLIDModal (handleSelect translate filename platform c) = GetSLID
  ↔ SLIDModal c = GetSLID
    ∨ (uploading (uploadInfo c) = false ∧ platform ≠ "youtube" ∧ hasSLID c = false).
Proof.
  unfold SLIDModal, handleSelect.
  destruct (uploading (uploadInfo c)); simpl.
  - split; [auto|]. by intros [?|(? & _)].
  - destruct (String.eqb platform "youtube") eqn:Hp; simpl.
    + apply String.eqb_eq in Hp. split; [auto|]. by intros [?|(_ & ? & _)].
    + apply String.eqb_neq in Hp. destruct (hasSLID c); simpl.
      * split; [auto|]. by intros [?|(_ & _ & ?)].
      * split; [auto|done].
Qed.

Section Options.
Variable translate : string → string.

(** The upload options.  There are always the three editing targets, in
    one order, with YouTube put first when that platform is linked; the
    values, which the page uses as keys, are distinct, and the list is
    never empty, so the page shows the actions for every recording. *)
Theorem uploadOptions_shape (c : controller) :
  let values := option_value <$> uploadOptions translate c in
  values = (if hasYoutube c then ["youtube"] else [])
           ++ ["crossclip"; "typestudio"; "videoeditor"]
  ∧ NoDup values
  ∧ (0 < length (uploadOptions translate c))%nat
  ∧ ("youtube" ∈ values ↔ "youtube" ∈ linkedPlatforms c).
Proof.
  intros values. subst values. unfold uploadOptions, hasYoutube.
  destruct (bool_decide ("youtube" ∈ linkedPlatforms c)) eqn:Hy; simpl.
  - apply bool_decide_eq_true in Hy.
    split; [done|]. split; [by apply (bool_decide_unpack (NoDup _))|]. split; [lia|].
    split; [done|]. intros _. apply list_elem_of_here.
  - apply bool_decide_eq_false in Hy.
    split; [done|]. split; [by apply (bool_decide_unpack (NoDup _))|]. split; [lia|].
    split; [|done]. intros Hin. exfalso. revert Hin.
    by apply (bool_decide_unpack (¬ _)).
Qed.

(** A click does one thing.  [handleSelect] posts one notification, or
    asks for one upload, or opens the prompt, and nothing else: the upload
    info, the linked platforms and the Streamlabs ID are not touched, and
    [ExportModal] renders what it rendered. *)
Theorem handleSelect_does_one_thing (filename platform : string) (c : controller) :
  let c' := handleSelect translate filename platform c in
  uploadInfo c' = uploadInfo c
  ∧ linkedPlatforms c' = linkedPlatforms c
  ∧ slid c' = slid c
  ∧ ExportModal c' = ExportModal c
  ∧ ((∃ n, notifications c' = notifications c ++ [n]
           ∧ requests c' = requests c ∧ showSLIDModal c' = showSLIDModal c)
     ∨ (∃ r, requests c' = requests c ++ [r]
             ∧ notifications c' = notifications c ∧ showSLIDModal c' = showSLIDModal c)
     ∨ (showSLIDModal c' = true
        ∧ notifications c' = notifications c ∧ requests c' = requests c)).
Proof.
  intros c'. subst c'. unfold handleSelect.
  destruct (uploading (uploadInfo c)).
  - split; [done|]. split; [done|]. split; [done|]. split; [done|].
    left. eexists. done.
  - destruct (String.eqb platform "youtube").
    + split; [done|]. split; [done|]. split; [done|]. split; [done|].
      right. left. eexists. done.
    + destruct (hasSLID c).
      * split; [done|]. split; [done|]. split; [done|]. split; [done|].
        right. left. eexists. done.
      * split; [done|]. split; [done|]. split; [done|]. split; [done|].
        right. right. done.
Qed.

End Options.

End RecordingHistoryMore.
